(** * Pod status helpers of [pkg/util/pod.go]

    A shallow embedding of the helper functions of [pkg/util/pod.go] and
    the properties its specification states about them.

    Go features the embedding makes explicit:
    - a call either returns or panics (nil dereference, index out of
      range): [outcome];
    - a pointer argument is nil or designates a cell: [ptr]; the condition
      pointer of the mutating helpers designates a cell of its own or an
      entry of the status it is passed with: [condition_ref]; a helper
      that writes through its pointers is run on a [memory] and leaves
      one, also when it panics;
    - a slice is nil or holds a sequence of elements: [slice];
    - the wall clock read by [metav1.Now()] is an argument [now]. *)

From stdpp Require Import base numbers list strings.

Local Open Scope string_scope.
Local Open Scope list_scope.
Local Open Scope Z_scope.

(** ** Go run-time notions *)

(** Result of running a Go call. *)
Inductive outcome (A : Type) : Type :=
  | Ret (a : A)
  | Panic.
Arguments Ret {A} a.
Arguments Panic {A}.

(** Sequencing stops at the first panic; [x ← m; k] is stdpp's notation
    for [mbind]. *)
#[global] Instance outcome_bind : MBind outcome := λ A B k m,
  match m with
  | Ret a => k a
  | Panic => Panic
  end.

(** A pointer [*T], by the content of the cell it designates; [None] is nil. *)
Definition ptr (A : Type) : Type := option A.

(** Reading a field through a pointer panics on nil. *)
Definition deref {A : Type} (p : ptr A) : outcome A :=
  match p with
  | Some a => Ret a
  | None => Panic
  end.

(** A slice [[]T]: [None] is the nil slice, [Some l] a slice of the
    elements [l] (capacity and sharing of the backing array are not
    represented). *)
Definition slice (A : Type) : Type := option (list A).

Definition elems {A : Type} (s : slice A) : list A :=
  match s with
  | Some l => l
  | None => []
  end.

(** [append(s, x)]: never nil, also when [s] is. *)
Definition append {A : Type} (s : slice A) (x : A) : slice A :=
  Some (elems s ++ [x]).

(** [s[i] = x] for a Go [int] index: panics out of range, keeps the slice
    header otherwise. *)
Definition slice_store {A : Type} (s : slice A) (i : Z) (x : A) : outcome (slice A) :=
  if bool_decide (0 ≤ i < Z.of_nat (length (elems s)))
  then Ret (Some (<[Z.to_nat i := x]> (elems s)))
  else Panic.

(** [s[i]] for a Go [int] index: panics out of range. *)
Definition slice_index {A : Type} (s : slice A) (i : Z) : outcome A :=
  if bool_decide (0 ≤ i)
  then match elems s !! Z.to_nat i with
       | Some x => Ret x
       | None => Panic
       end
  else Panic.

(** ** The API types the helpers work on *)

Module metav1.

(** Modelled from the spec: [metav1.Time] of k8s.io/apimachinery is not
    part of this repository.  A timestamp is taken as the instant it
    denotes, counted from the zero time; [Equal] compares instants and
    [IsZero] is asked through a pointer, nil counting as zero
    ("absent/zero"). *)
Definition Time : Type := Z.

Definition Equal (t u : Time) : bool := Z.eqb t u.

Definition IsZero (t : ptr Time) : bool :=
  match t with
  | None => true
  | Some t => Z.eqb t 0
  end.

End metav1.

(** Modelled from the spec: the declarations of k8s.io/api/core/v1 are not
    part of this repository.  Condition types, the tri-state condition
    status and the phase are string-valued there; the constants are the
    ones the helpers name. *)
Definition PodConditionType : Type := string.
Definition ConditionStatus : Type := string.
Definition PodPhase : Type := string.

Definition ConditionTrue : ConditionStatus := "True".
Definition ConditionFalse : ConditionStatus := "False".
Definition ConditionUnknown : ConditionStatus := "Unknown".

Definition PodReady : PodConditionType := "Ready".

Definition PodPending : PodPhase := "Pending".
Definition PodRunning : PodPhase := "Running".
Definition PodSucceeded : PodPhase := "Succeeded".
Definition PodFailed : PodPhase := "Failed".

Module PodCondition.

(** Modelled from the spec: [corev1.PodCondition], the six fields the
    specification lists. *)
Record t : Type := mk {
  Type_ : PodConditionType;
  Status : ConditionStatus;
  LastProbeTime : metav1.Time;
  LastTransitionTime : metav1.Time;
  Reason : string;
  Message : string
}.

(** [c.LastTransitionTime = time] *)
Definition set_LastTransitionTime (time : metav1.Time) (c : t) : t :=
  mk (Type_ c) (Status c) (LastProbeTime c) time (Reason c) (Message c).

End PodCondition.

Module PodReadinessGate.

(** Modelled from the spec: [corev1.PodReadinessGate], a record wrapping
    one condition type. *)
Record t : Type := mk { ConditionType : PodConditionType }.

End PodReadinessGate.

Module PodSpec.

(** Modelled from the spec: [corev1.PodSpec], of which the helpers touch
    the readiness gates only. *)
Record t : Type := mk { ReadinessGates : slice PodReadinessGate.t }.

Definition set_ReadinessGates (gates : slice PodReadinessGate.t) (s : t) : t :=
  mk gates.

End PodSpec.

Module PodStatus.

(** Modelled from the spec: [corev1.PodStatus], of which the helpers
    touch the phase and the conditions. *)
Record t : Type := mk {
  Phase : PodPhase;
  Conditions : slice PodCondition.t
}.

Definition set_Conditions (conditions : slice PodCondition.t) (s : t) : t :=
  mk (Phase s) conditions.

End PodStatus.

Module Pod.

(** Modelled from the spec: [corev1.Pod]; [Name] and [DeletionTimestamp]
    are promoted from the embedded object metadata. *)
Record t : Type := mk {
  Name : string;
  DeletionTimestamp : ptr metav1.Time;
  Spec : PodSpec.t;
  Status : PodStatus.t
}.

End Pod.

(** ** The helpers *)

(** The [for _, pod := range pods] loop of [GetPodNames]; [result] is the
    slice built so far. *)
Fixpoint GetPodNames_range (pods : list (ptr Pod.t)) (result : list string)
  : outcome (list string) :=
  match pods with
  | [] => Ret result
  | pod :: rest =>
      p ← deref pod;
      GetPodNames_range rest (result ++ [Pod.Name p])
  end.

Definition GetPodNames (pods : slice (ptr Pod.t)) : outcome (slice string) :=
  result ← GetPodNames_range (elems pods) [];
  Ret (Some result).

Definition IsPodRunning (pod : ptr Pod.t) : outcome bool :=
  p ← deref pod;
  Ret (metav1.IsZero (Pod.DeletionTimestamp p) &&
       String.eqb (PodStatus.Phase (Pod.Status p)) PodRunning).

Definition IsPodActive (pod : ptr Pod.t) : outcome bool :=
  p ← deref pod;
  Ret (negb (String.eqb (PodStatus.Phase (Pod.Status p)) PodSucceeded) &&
       negb (String.eqb (PodStatus.Phase (Pod.Status p)) PodFailed) &&
       metav1.IsZero (Pod.DeletionTimestamp p)).

(** The [for i := range conditions] loop of [GetPodConditionFromList],
    from index [i] on.  The pointer [&conditions[i]] is given by the
    content of the element; the index next to it says which element. *)
Fixpoint GetPodConditionFromList_range (conditions : list PodCondition.t)
    (conditionType : PodConditionType) (i : Z) : Z * ptr PodCondition.t :=
  match conditions with
  | [] => (-1, None)
  | c :: rest =>
      if String.eqb (PodCondition.Type_ c) conditionType
      then (i, Some c)
      else GetPodConditionFromList_range rest conditionType (i + 1)
  end.

Definition GetPodConditionFromList (conditions : slice PodCondition.t)
    (conditionType : PodConditionType) : Z * ptr PodCondition.t :=
  match conditions with
  | None => (-1, None)
  | Some l => GetPodConditionFromList_range l conditionType 0
  end.

Definition GetPodCondition (status : ptr PodStatus.t)
    (conditionType : PodConditionType) : Z * ptr PodCondition.t :=
  match status with
  | None => (-1, None)
  | Some s => GetPodConditionFromList (PodStatus.Conditions s) conditionType
  end.

Definition GetPodReadyCondition (status : PodStatus.t) : ptr PodCondition.t :=
  snd (GetPodCondition (Some status) PodReady).

Definition IsPodReadyConditionTrue (status : PodStatus.t) : bool :=
  match GetPodReadyCondition status with
  | None => false
  | Some condition => String.eqb (PodCondition.Status condition) ConditionTrue
  end.

Definition IsPodReady (pod : ptr Pod.t) : outcome bool :=
  p ← deref pod;
  Ret (IsPodReadyConditionTrue (Pod.Status p)).


(** ** The memory the mutating helpers work on *)

(** What the condition pointer of a call designates: a cell of its own,
    given by its content, or the entry [&status.Conditions[k]] of the
    status the call is made with (what [GetPodCondition] hands out).
    Such a pointer is made from an entry the status has, see
    [designates]; read through for an entry it has not, the model
    panics as an index out of range does. *)
Inductive condition_ref : Type :=
  | Separate (c : PodCondition.t)
  | Stored (k : nat).

(** The two pointer arguments with the content of what they designate. *)
Record memory : Type := Memory {
  mem_status : ptr PodStatus.t;
  mem_condition : ptr condition_ref
}.

(** A run from a memory: a result or a panic, and the memory then. *)
Definition exec (A : Type) : Type := memory → outcome A * memory.

#[global] Instance exec_ret : MRet exec := λ A a m, (Ret a, m).

#[global] Instance exec_bind : MBind exec := λ A B k x m,
  match x m with
  | (Ret a, m') => k a m'
  | (Panic, m') => (Panic, m')
  end.

(** [*status] *)
Definition read_status : exec PodStatus.t := λ m,
  (deref (mem_status m), m).

(** [status.Conditions = conditions] *)
Definition write_status_Conditions (conditions : slice PodCondition.t) : exec () := λ m,
  match mem_status m with
  | Some s => (Ret (), Memory (Some (PodStatus.set_Conditions conditions s)) (mem_condition m))
  | None => (Panic, m)
  end.

(** [status.Conditions[i]] *)
Definition read_entry (i : Z) : exec PodCondition.t := λ m,
  match mem_status m with
  | Some s => (slice_index (PodStatus.Conditions s) i, m)
  | None => (Panic, m)
  end.

(** [status.Conditions[i] = c] *)
Definition write_entry (i : Z) (c : PodCondition.t) : exec () := λ m,
  match mem_status m with
  | Some s =>
      match slice_store (PodStatus.Conditions s) i c with
      | Ret conditions =>
          (Ret (), Memory (Some (PodStatus.set_Conditions conditions s)) (mem_condition m))
      | Panic => (Panic, m)
      end
  | None => (Panic, m)
  end.

(** [*condition] *)
Definition read_condition : exec PodCondition.t := λ m,
  match mem_condition m with
  | None => (Panic, m)
  | Some (Separate c) => (Ret c, m)
  | Some (Stored k) => read_entry (Z.of_nat k) m
  end.

(** [*condition = c] *)
Definition write_condition (c : PodCondition.t) : exec () := λ m,
  match mem_condition m with
  | None => (Panic, m)
  | Some (Separate _) => (Ret (), Memory (mem_status m) (Some (Separate c)))
  | Some (Stored k) => write_entry (Z.of_nat k) c m
  end.

(** [GetPodCondition(status, conditionType)] on the status of the memory. *)
Definition lookup_condition (conditionType : PodConditionType)
  : exec (Z * ptr PodCondition.t) := λ m,
  (Ret (GetPodCondition (mem_status m) conditionType), m).

(** The body of [UpdatePodCondition].  [oldCondition] is the pointer
    [&status.Conditions[conditionIndex]]: what it designates is read
    where the source reads it. *)
Definition UpdatePodCondition_body (now : metav1.Time) : exec bool :=
  c ← read_condition;
  _ ← write_condition (PodCondition.set_LastTransitionTime now c);
  c ← read_condition;
  '(conditionIndex, oldCondition) ← lookup_condition (PodCondition.Type_ c);
  match oldCondition with
  | None =>
      s ← read_status;
      c ← read_condition;
      _ ← write_status_Conditions (append (PodStatus.Conditions s) c);
      mret true
  | Some _ =>
      c ← read_condition;
      old ← read_entry conditionIndex;
      _ ← (if String.eqb (PodCondition.Status c) (PodCondition.Status old)
           then write_condition
                  (PodCondition.set_LastTransitionTime
                     (PodCondition.LastTransitionTime old) c)
           else mret ());
      c ← read_condition;
      old ← read_entry conditionIndex;
      let isEqual :=
        String.eqb (PodCondition.Status c) (PodCondition.Status old) &&
        String.eqb (PodCondition.Reason c) (PodCondition.Reason old) &&
        String.eqb (PodCondition.Message c) (PodCondition.Message old) &&
        metav1.Equal (PodCondition.LastProbeTime c) (PodCondition.LastProbeTime old) &&
        metav1.Equal (PodCondition.LastTransitionTime c)
                     (PodCondition.LastTransitionTime old) in
      _ ← write_entry conditionIndex c;
      mret (negb isEqual)
  end.

(** A call of [UpdatePodCondition]: its result, and the status and the
    condition as the caller finds them afterwards. *)
Definition UpdatePodCondition (now : metav1.Time) (status : ptr PodStatus.t)
    (condition : ptr condition_ref) : outcome bool * memory :=
  UpdatePodCondition_body now (Memory status condition).

Definition AddPodCondition_body (now : metav1.Time) : exec bool :=
  c ← read_condition;
  '(_, oldCondition) ← lookup_condition (PodCondition.Type_ c);
  match oldCondition with
  | Some _ => mret false
  | None =>
      c ← read_condition;
      _ ← write_condition (PodCondition.set_LastTransitionTime now c);
      s ← read_status;
      c ← read_condition;
      _ ← write_status_Conditions (append (PodStatus.Conditions s) c);
      mret true
  end.

Definition AddPodCondition (now : metav1.Time) (status : ptr PodStatus.t)
    (condition : ptr condition_ref) : outcome bool * memory :=
  AddPodCondition_body now (Memory status condition).

(** The [for _, rg := range spec.ReadinessGates] loop of
    [AddPodReadinessGate]: [true] when some gate carries the type. *)
Fixpoint AddPodReadinessGate_range (gates : list PodReadinessGate.t)
    (conditionType : PodConditionType) : bool :=
  match gates with
  | [] => false
  | rg :: rest =>
      if String.eqb (PodReadinessGate.ConditionType rg) conditionType
      then true
      else AddPodReadinessGate_range rest conditionType
  end.

Definition AddPodReadinessGate (spec : ptr PodSpec.t)
    (conditionType : PodConditionType) : outcome (bool * PodSpec.t) :=
  s ← deref spec;
  if AddPodReadinessGate_range (elems (PodSpec.ReadinessGates s)) conditionType
  then Ret (false, s)
  else Ret (true,
            PodSpec.set_ReadinessGates
              (append (PodSpec.ReadinessGates s)
                 (PodReadinessGate.mk conditionType)) s).

(** ** Reading the scans *)

(** No element of [l] has type [ty]. *)
Definition absent (l : list PodCondition.t) (ty : PodConditionType) : Prop :=
  ∀ c, c ∈ l → PodCondition.Type_ c ≠ ty.

(** [c] is the element of [l] at position [i], it has type [ty], and no
    element before it has. *)
Definition first_match (l : list PodCondition.t) (ty : PodConditionType)
    (i : nat) (c : PodCondition.t) : Prop :=
  l !! i = Some c ∧ PodCondition.Type_ c = ty ∧
  ∀ j c', (j < i)%nat → l !! j = Some c' → PodCondition.Type_ c' ≠ ty.

(** No gate of [l] wraps [ty]. *)
Definition gate_absent (l : list PodReadinessGate.t) (ty : PodConditionType) : Prop :=
  ∀ rg, rg ∈ l → PodReadinessGate.ConditionType rg ≠ ty.

(** At most one entry per key. *)
Definition unique_types (l : list PodCondition.t) : Prop :=
  NoDup (PodCondition.Type_ <$> l).

Definition unique_gates (l : list PodReadinessGate.t) : Prop :=
  NoDup (PodReadinessGate.ConditionType <$> l).

(** [c] with the transition time [time], field by field. *)
Abbreviation with_LastTransitionTime time c :=
  (PodCondition.mk (PodCondition.Type_ c) (PodCondition.Status c)
     (PodCondition.LastProbeTime c) time
     (PodCondition.Reason c) (PodCondition.Message c)) (only parsing).

(** The comparison [UpdatePodCondition] makes between the new condition
    and the entry it replaces, the transition time apart. *)
Definition same_observation (c old : PodCondition.t) : bool :=
  String.eqb (PodCondition.Status c) (PodCondition.Status old) &&
  String.eqb (PodCondition.Reason c) (PodCondition.Reason old) &&
  String.eqb (PodCondition.Message c) (PodCondition.Message old) &&
  metav1.Equal (PodCondition.LastProbeTime c) (PodCondition.LastProbeTime old).

(** The new condition as [UpdatePodCondition] stores it over [old]: with
    the transition time of [old] when the status is the same, stamped
    [now] otherwise. *)
Definition stored_condition (now : metav1.Time) (old c : PodCondition.t)
  : PodCondition.t :=
  with_LastTransitionTime
    (if String.eqb (PodCondition.Status c) (PodCondition.Status old)
     then PodCondition.LastTransitionTime old else now) c.

(** What a condition reference designates, next to a status: the
    content of its cell, nothing for an entry the status does not have. *)
Definition content (s : PodStatus.t) (r : condition_ref) : option PodCondition.t :=
  match r with
  | Separate c => Some c
  | Stored k => elems (PodStatus.Conditions s) !! k
  end.

(** The condition sequence after the cell of a reference has been
    written: as it was for a cell of its own, with the entry replaced
    for a stored one. *)
Definition written (r : condition_ref) (c : PodCondition.t)
    (l : list PodCondition.t) : list PodCondition.t :=
  match r with
  | Separate _ => l
  | Stored k => <[k := c]> l
  end.

(** The reference after its cell has been written. *)
Definition holding (r : condition_ref) (c : PodCondition.t) : condition_ref :=
  match r with
  | Separate _ => Separate c
  | Stored k => Stored k
  end.

(** The pointers of a call designate something: a stored entry is an
    entry of the status passed with it. *)
Definition designates (status : ptr PodStatus.t) (condition : ptr condition_ref)
  : Prop :=
  match condition with
  | Some (Stored k) =>
      match status with
      | Some s => is_Some (elems (PodStatus.Conditions s) !! k)
      | None => False
      end
  | _ => True
  end.

(** ** Sample data

    A running pod that is scheduled and not ready, and conditions to
    record on it. *)
Definition sample_now : metav1.Time := 1000.

Definition sample_scheduled : PodCondition.t :=
  PodCondition.mk "PodScheduled" ConditionTrue 3 50 "Bound" "".

Definition sample_not_ready : PodCondition.t :=
  PodCondition.mk PodReady ConditionFalse 7 100 "Probing" "waiting".

(** The entry of [sample_status], offered again by a caller. *)
Definition sample_not_ready_again : PodCondition.t :=
  PodCondition.mk PodReady ConditionFalse 7 0 "Probing" "waiting".

(** Same status as the entry of [sample_status], another reason. *)
Definition sample_not_ready_other_reason : PodCondition.t :=
  PodCondition.mk PodReady ConditionFalse 7 0 "Gated" "waiting".

Definition sample_ready : PodCondition.t :=
  PodCondition.mk PodReady ConditionTrue 9 0 "Probing" "ok".

Definition sample_initialized : PodCondition.t :=
  PodCondition.mk "Initialized" ConditionTrue 4 0 "" "".

Definition sample_status : PodStatus.t :=
  PodStatus.mk PodRunning (Some [sample_scheduled; sample_not_ready]).

Definition sample_spec : PodSpec.t :=
  PodSpec.mk (Some [PodReadinessGate.mk "example.com/gate"]).

(** Two conditions of type Ready. *)
Definition sample_status_twice_ready : PodStatus.t :=
  PodStatus.mk PodRunning (Some [sample_not_ready; sample_ready]).

Definition sample_pod : Pod.t :=
  Pod.mk "web-0" None sample_spec sample_status.

(** Runs the steps of a body up to the next lookup or indexing. *)
Create HintDb exec.
#[global] Hint Unfold mbind exec_bind mret exec_ret read_condition write_condition
  read_entry write_entry read_status write_status_Conditions lookup_condition
  PodCondition.set_LastTransitionTime PodStatus.set_Conditions append
  : exec.

Ltac run_exec :=
  repeat (autounfold with exec;
          cbn -[GetPodConditionFromList slice_index slice_store String.eqb
                same_observation stored_condition]).

Tactic Notation "run_exec" "in" hyp(H) :=
  cbn -[GetPodConditionFromList slice_index slice_store String.eqb
        same_observation stored_condition] in H.

Section scans.

Implicit Types (l : list PodCondition.t) (ty : PodConditionType).

Lemma absent_nil ty : absent [] ty.
Proof. intros c Hc. by apply elem_of_nil in Hc. Qed.

Lemma absent_cons c l ty :
  absent (c :: l) ty ↔ PodCondition.Type_ c ≠ ty ∧ absent l ty.
Proof.
  unfold absent. split.
  - intros H. split; [apply H; left | intros c' Hc'; apply H; by right].
  - intros [Hc Hl] c' Hc'. apply elem_of_cons in Hc' as [->|Hc']; auto.
Qed.

Lemma first_match_head c l ty :
  PodCondition.Type_ c = ty → first_match (c :: l) ty 0 c.
Proof. intros H. repeat split; [done|]. intros j c' Hj. lia. Qed.

Lemma first_match_tail c l ty i c' :
  PodCondition.Type_ c ≠ ty → first_match l ty i c' → first_match (c :: l) ty (S i) c'.
Proof.
  intros Hc (Hi & Hty & Hbefore). repeat split; [done..|].
  intros [|j] d Hj Hd; simpl in Hd.
  - by inversion Hd; subst.
  - apply (Hbefore j); [lia | done].
Qed.

Lemma first_match_not_absent l ty i c : first_match l ty i c → ¬ absent l ty.
Proof.
  intros (Hi & Hty & _) Habs. apply (Habs c); [|done].
  apply list_elem_of_lookup. eauto.
Qed.

Lemma first_match_unique l ty i c i' c' :
  first_match l ty i c → first_match l ty i' c' → i = i' ∧ c = c'.
Proof.
  intros (Hi & Hty & Hb) (Hi' & Hty' & Hb').
  assert (i = i') as <-.
  { destruct (Nat.lt_trichotomy i i') as [Hlt|[Heq|Hlt]]; [|done|].
    - by destruct (Hb' i c Hlt Hi).
    - by destruct (Hb i' c' Hlt Hi'). }
  split; [done | congruence].
Qed.

(** What the loop of [GetPodConditionFromList] computes when started at
    index [k]. *)
Lemma GetPodConditionFromList_range_spec l ty k :
  (absent l ty ∧ GetPodConditionFromList_range l ty k = (-1, None)) ∨
  (∃ i c, first_match l ty i c ∧
          GetPodConditionFromList_range l ty k = (k + Z.of_nat i, Some c)).
Proof.
  revert k. induction l as [|c l IH]; intros k; simpl.
  - left. split; [apply absent_nil | done].
  - destruct (String.eqb_spec (PodCondition.Type_ c) ty) as [Heq|Hne].
    + right. exists 0%nat, c. split; [by apply first_match_head|].
      f_equal. lia.
    + destruct (IH (k + 1)) as [[Habs Hr]|(i & c' & Hfm & Hr)].
      * left. split; [by apply absent_cons | done].
      * right. exists (S i), c'. split; [by apply first_match_tail|].
        rewrite Hr. f_equal. lia.
Qed.

Lemma GetPodConditionFromList_range_absent l ty k :
  absent l ty → GetPodConditionFromList_range l ty k = (-1, None).
Proof.
  intros Habs.
  destruct (GetPodConditionFromList_range_spec l ty k)
    as [[_ Hr]|(i & c & Hfm & _)]; [done|].
  by destruct (first_match_not_absent _ _ _ _ Hfm).
Qed.

Lemma GetPodConditionFromList_range_found l ty k i c :
  first_match l ty i c →
  GetPodConditionFromList_range l ty k = (k + Z.of_nat i, Some c).
Proof.
  intros Hfm.
  destruct (GetPodConditionFromList_range_spec l ty k)
    as [[Habs _]|(i' & c' & Hfm' & Hr)].
  - by destruct (first_match_not_absent _ _ _ _ Hfm).
  - by destruct (first_match_unique _ _ _ _ _ _ Hfm Hfm') as [-> ->].
Qed.

Lemma GetPodConditionFromList_absent (conditions : slice PodCondition.t) ty :
  absent (elems conditions) ty →
  GetPodConditionFromList conditions ty = (-1, None).
Proof.
  destruct conditions as [l|]; simpl; [|done].
  apply GetPodConditionFromList_range_absent.
Qed.

Lemma GetPodConditionFromList_found (conditions : slice PodCondition.t) ty i c :
  first_match (elems conditions) ty i c →
  GetPodConditionFromList conditions ty = (Z.of_nat i, Some c).
Proof.
  destruct conditions as [l|]; simpl; intros Hfm.
  - by rewrite (GetPodConditionFromList_range_found _ _ 0 _ _ Hfm).
  - by destruct Hfm as [? _].
Qed.

(** A slice with an entry is not nil. *)
Lemma first_match_not_nil (conditions : slice PodCondition.t) ty i c :
  first_match (elems conditions) ty i c → conditions = Some (elems conditions).
Proof. destruct conditions; [done|]. by intros [? _]. Qed.

(** Some entry has the type exactly when a first one has. *)
Lemma first_match_exists l ty :
  (∃ c, c ∈ l ∧ PodCondition.Type_ c = ty) ↔ ∃ i c, first_match l ty i c.
Proof.
  split.
  - intros (c & Hin & Hty).
    destruct (GetPodConditionFromList_range_spec l ty 0)
      as [[Habs _]|(i & c' & Hfm & _)]; [|eauto].
    by destruct (Habs c Hin).
  - intros (i & c & Hi & Hty & _). exists c. split; [|done].
    apply list_elem_of_lookup. eauto.
Qed.

End scans.


(** ** What the mutating helpers leave behind *)

Section updates.

Implicit Types (s : PodStatus.t) (c old : PodCondition.t) (now : metav1.Time).
Implicit Types (l : list PodCondition.t) (r : condition_ref).

Lemma slice_store_in_range {A : Type} (conditions : slice A) (i : nat) (x y : A) :
  elems conditions !! i = Some y →
  slice_store conditions (Z.of_nat i) x = Ret (Some (<[i := x]> (elems conditions))).
Proof.
  intros Hi. apply lookup_lt_Some in Hi. unfold slice_store.
  rewrite bool_decide_eq_true_2 by lia. by rewrite Nat2Z.id.
Qed.

Lemma slice_index_in_range {A : Type} (conditions : slice A) (i : nat) (y : A) :
  elems conditions !! i = Some y →
  slice_index conditions (Z.of_nat i) = Ret y.
Proof.
  intros Hi. unfold slice_index.
  rewrite bool_decide_eq_true_2 by lia. by rewrite Nat2Z.id, Hi.
Qed.

Lemma same_observation_true c old :
  same_observation c old = true ↔
  PodCondition.Status c = PodCondition.Status old ∧
  PodCondition.Reason c = PodCondition.Reason old ∧
  PodCondition.Message c = PodCondition.Message old ∧
  PodCondition.LastProbeTime c = PodCondition.LastProbeTime old.
Proof.
  unfold same_observation, metav1.Equal.
  rewrite !andb_true_iff, !String.eqb_eq, Z.eqb_eq. tauto.
Qed.

Lemma stored_condition_same_status now old c :
  PodCondition.Status c = PodCondition.Status old →
  stored_condition now old c =
    with_LastTransitionTime (PodCondition.LastTransitionTime old) c.
Proof. intros Hs. unfold stored_condition. by rewrite (proj2 (String.eqb_eq _ _) Hs). Qed.

Lemma stored_condition_other_status now old c :
  PodCondition.Status c ≠ PodCondition.Status old →
  stored_condition now old c = with_LastTransitionTime now c.
Proof. intros Hs. unfold stored_condition. by rewrite (proj2 (String.eqb_neq _ _) Hs). Qed.

(** A condition in a cell of its own, no entry of its type: the stamped
    condition is appended. *)
Lemma UpdatePodCondition_separate_absent now s c :
  absent (elems (PodStatus.Conditions s)) (PodCondition.Type_ c) →
  UpdatePodCondition now (Some s) (Some (Separate c)) =
    (Ret true,
     Memory
       (Some (PodStatus.mk (PodStatus.Phase s)
                (Some (elems (PodStatus.Conditions s) ++ [with_LastTransitionTime now c]))))
       (Some (Separate (with_LastTransitionTime now c)))).
Proof.
  intros Habs. unfold UpdatePodCondition, UpdatePodCondition_body.
  run_exec. by rewrite (GetPodConditionFromList_absent _ _ Habs).
Qed.

(** A condition in a cell of its own, a first entry of its type at [i]:
    the entry is overwritten by [stored_condition]. *)
Lemma UpdatePodCondition_separate_found now s c i old :
  first_match (elems (PodStatus.Conditions s)) (PodCondition.Type_ c) i old →
  UpdatePodCondition now (Some s) (Some (Separate c)) =
    (Ret (negb (same_observation c old)),
     Memory
       (Some (PodStatus.mk (PodStatus.Phase s)
                (Some (<[i := stored_condition now old c]>
                         (elems (PodStatus.Conditions s))))))
       (Some (Separate (stored_condition now old c)))).
Proof.
  intros Hfm. unfold UpdatePodCondition, UpdatePodCondition_body.
  run_exec. rewrite (GetPodConditionFromList_found _ _ _ _ Hfm).
  destruct Hfm as (Hi & _ & _). run_exec.
  rewrite (slice_index_in_range _ _ _ Hi). run_exec.
  unfold stored_condition, same_observation.
  destruct (String.eqb (PodCondition.Status c) (PodCondition.Status old)) eqn:Hs;
    run_exec;
    rewrite (slice_index_in_range _ _ _ Hi); run_exec;
    rewrite (slice_store_in_range _ _ _ _ Hi); run_exec;
    rewrite Hs; cbn; [|done].
  unfold metav1.Equal at 2. by rewrite Z.eqb_refl, andb_true_r.
Qed.

Lemma slice_store_Some {A : Type} (l : list A) (i : nat) (x y : A) :
  l !! i = Some y → slice_store (Some l) (Z.of_nat i) x = Ret (Some (<[i := x]> l)).
Proof. apply (slice_store_in_range (Some l)). Qed.

Lemma slice_index_Some {A : Type} (l : list A) (i : nat) (y : A) :
  l !! i = Some y → slice_index (Some l) (Z.of_nat i) = Ret y.
Proof. apply (slice_index_in_range (Some l)). Qed.

(** A slice with an entry is not nil. *)
Lemma lookup_not_nil {A : Type} (conditions : slice A) (k : nat) (x : A) :
  elems conditions !! k = Some x → conditions = Some (elems conditions).
Proof. by destruct conditions. Qed.

(** The condition pointer designates the entry [k] of the status: the
    entry is stamped where it is stored, the lookup then finds the first
    entry [i] of its type, at [k] or before, and both entries end as
    [stored_condition]. *)
Lemma UpdatePodCondition_stored now s k c i old :
  elems (PodStatus.Conditions s) !! k = Some c →
  first_match (<[k := with_LastTransitionTime now c]> (elems (PodStatus.Conditions s)))
    (PodCondition.Type_ c) i old →
  UpdatePodCondition now (Some s) (Some (Stored k)) =
    (Ret (negb (same_observation c old)),
     Memory
       (Some (PodStatus.mk (PodStatus.Phase s)
                (Some (<[i := stored_condition now old c]>
                         (<[k := stored_condition now old c]>
                            (elems (PodStatus.Conditions s)))))))
       (Some (Stored k))).
Proof.
  intros Hk Hfm. destruct s as [phase [l|]]; [|done].
  cbn [PodStatus.Phase PodStatus.Conditions elems] in *.
  pose proof (lookup_lt_Some _ _ _ Hk) as Hlt.
  assert (<[k := with_LastTransitionTime now c]> l !! k
          = Some (with_LastTransitionTime now c)) as Hk1
    by (by apply list_lookup_insert_eq).
  destruct Hfm as (Hi & Hty & Hbefore).
  unfold UpdatePodCondition, UpdatePodCondition_body. run_exec.
  rewrite (slice_index_Some _ _ _ Hk). run_exec.
  rewrite (slice_store_Some _ _ _ _ Hk). run_exec.
  rewrite (slice_index_Some _ _ _ Hk1). run_exec.
  rewrite (GetPodConditionFromList_found
             (Some (<[k := with_LastTransitionTime now c]> l)) _ i old)
    by (by repeat split). run_exec.
  rewrite (slice_index_Some _ _ _ Hk1). run_exec.
  rewrite (slice_index_Some _ _ _ Hi). run_exec.
  unfold stored_condition, same_observation.
  destruct (String.eqb (PodCondition.Status c) (PodCondition.Status old)) eqn:Hs;
    run_exec.
  - rewrite (slice_store_Some _ _ _ _ Hk1). run_exec.
    rewrite list_insert_insert_eq.
    assert (<[k := with_LastTransitionTime (PodCondition.LastTransitionTime old) c]> l
              !! k
            = Some (with_LastTransitionTime (PodCondition.LastTransitionTime old) c))
      as Hk2 by (by apply list_lookup_insert_eq).
    rewrite (slice_index_Some _ _ _ Hk2). run_exec.
    assert (<[k := with_LastTransitionTime (PodCondition.LastTransitionTime old) c]> l
              !! i = Some old) as Hi2.
    { destruct (decide (i = k)) as [->|Hne].
      - rewrite Hk1 in Hi. injection Hi as <-. exact Hk2.
      - rewrite list_lookup_insert_ne in Hi by done.
        by rewrite list_lookup_insert_ne. }
    rewrite (slice_index_Some _ _ _ Hi2). run_exec.
    rewrite (slice_store_Some _ _ _ _ Hi2). run_exec.
    rewrite Hs. cbn. unfold metav1.Equal at 2.
    by rewrite Z.eqb_refl, andb_true_r.
  - rewrite (slice_index_Some _ _ _ Hk1). run_exec.
    rewrite (slice_index_Some _ _ _ Hi). run_exec.
    rewrite (slice_store_Some _ _ _ _ Hi). run_exec.
    by rewrite Hs.
Qed.

(** [AddPodCondition] with an entry of the type: nothing is written. *)
Lemma AddPodCondition_found now s r c i old :
  content s r = Some c →
  first_match (elems (PodStatus.Conditions s)) (PodCondition.Type_ c) i old →
  AddPodCondition now (Some s) (Some r) = (Ret false, Memory (Some s) (Some r)).
Proof.
  intros Hc Hfm. unfold AddPodCondition, AddPodCondition_body.
  destruct r as [c0|k]; cbn in Hc.
  - injection Hc as ->. run_exec.
    by rewrite (GetPodConditionFromList_found _ _ _ _ Hfm).
  - run_exec. rewrite (slice_index_in_range _ _ _ Hc). run_exec.
    by rewrite (GetPodConditionFromList_found _ _ _ _ Hfm).
Qed.

(** [AddPodCondition] without an entry of the type: the stamped
    condition is appended. *)
Lemma AddPodCondition_absent now s c :
  absent (elems (PodStatus.Conditions s)) (PodCondition.Type_ c) →
  AddPodCondition now (Some s) (Some (Separate c)) =
    (Ret true,
     Memory
       (Some (PodStatus.mk (PodStatus.Phase s)
                (Some (elems (PodStatus.Conditions s) ++ [with_LastTransitionTime now c]))))
       (Some (Separate (with_LastTransitionTime now c)))).
Proof.
  intros Habs. unfold AddPodCondition, AddPodCondition_body. run_exec.
  by rewrite (GetPodConditionFromList_absent _ _ Habs).
Qed.

(** A stored entry is an entry of its own type. *)
Lemma content_Stored_not_absent s k c :
  content s (Stored k) = Some c →
  ¬ absent (elems (PodStatus.Conditions s)) (PodCondition.Type_ c).
Proof.
  cbn. intros Hk Habs. apply (Habs c); [|done]. apply list_elem_of_lookup. eauto.
Qed.

End updates.

Section additions.

Implicit Types (s : PodStatus.t) (c : PodCondition.t) (now : metav1.Time).
Implicit Types (spec : PodSpec.t) (ty : PodConditionType).

(** Either no entry has the type or a first one has. *)
Lemma absent_or_first_match (l : list PodCondition.t) ty :
  absent l ty ∨ ∃ i c, first_match l ty i c.
Proof.
  destruct (GetPodConditionFromList_range_spec l ty 0)
    as [[Habs _]|(i & c & Hfm & _)]; eauto.
Qed.

(** Reading [first_match] and [absent] off a run of the loop. *)
Lemma first_match_of_range (l : list PodCondition.t) ty i c :
  GetPodConditionFromList_range l ty 0 = (Z.of_nat i, Some c) → first_match l ty i c.
Proof.
  intros Hr.
  destruct (GetPodConditionFromList_range_spec l ty 0)
    as [[_ Hr']|(i' & c' & Hfm & Hr')]; rewrite Hr' in Hr; [done|].
  injection Hr as Hi <-. by replace i with i' by lia.
Qed.

Lemma absent_of_range (l : list PodCondition.t) ty :
  snd (GetPodConditionFromList_range l ty 0) = None → absent l ty.
Proof.
  intros Hr.
  destruct (GetPodConditionFromList_range_spec l ty 0)
    as [[Habs _]|(i' & c' & Hfm & Hr')]; [done|].
  by rewrite Hr' in Hr.
Qed.

(** The loop of [AddPodReadinessGate] answers whether a gate wraps the type. *)
Lemma AddPodReadinessGate_range_true (l : list PodReadinessGate.t) ty :
  AddPodReadinessGate_range l ty = true ↔
  ∃ rg, rg ∈ l ∧ PodReadinessGate.ConditionType rg = ty.
Proof.
  induction l as [|rg l IH]; simpl.
  - split; [done|]. intros (rg & Hin & _). by apply elem_of_nil in Hin.
  - destruct (String.eqb_spec (PodReadinessGate.ConditionType rg) ty) as [Heq|Hne].
    + split; [|done]. intros _. exists rg. split; [left | done].
    + rewrite IH. split.
      * intros (rg' & Hin & Hty). exists rg'. split; [by right | done].
      * intros (rg' & Hin & Hty). apply elem_of_cons in Hin as [->|Hin]; [done|eauto].
Qed.

Lemma AddPodReadinessGate_range_false (l : list PodReadinessGate.t) ty :
  AddPodReadinessGate_range l ty = false ↔ gate_absent l ty.
Proof.
  rewrite <- not_true_iff_false, AddPodReadinessGate_range_true.
  unfold gate_absent. split.
  - intros Hno rg Hin Hty. apply Hno. eauto.
  - intros Habs (rg & Hin & Hty). by apply (Habs rg).
Qed.

(** Appending an entry with a fresh key keeps the keys distinct. *)
Lemma NoDup_snoc_fresh {K : Type} (keys : list K) (k : K) :
  NoDup keys → k ∉ keys → NoDup (keys ++ [k]).
Proof.
  intros Hnd Hk. apply NoDup_app. split; [done|]. split.
  - intros x Hx Hx'. apply list_elem_of_singleton in Hx' as ->. done.
  - apply NoDup_singleton.
Qed.

Lemma absent_not_elem_of (l : list PodCondition.t) ty :
  absent l ty → ty ∉ PodCondition.Type_ <$> l.
Proof.
  intros Habs Hin. apply list_elem_of_fmap in Hin as (c & -> & Hc).
  by apply (Habs c).
Qed.

Lemma gate_absent_not_elem_of (l : list PodReadinessGate.t) ty :
  gate_absent l ty → ty ∉ PodReadinessGate.ConditionType <$> l.
Proof.
  intros Habs Hin. apply list_elem_of_fmap in Hin as (rg & -> & Hrg).
  by apply (Habs rg).
Qed.

Lemma unique_types_snoc (l : list PodCondition.t) c :
  unique_types l → absent l (PodCondition.Type_ c) → unique_types (l ++ [c]).
Proof.
  unfold unique_types. intros Hnd Habs. rewrite fmap_app. simpl.
  apply NoDup_snoc_fresh; [done|]. by apply absent_not_elem_of.
Qed.

(** Overwriting an entry by one of the same type keeps the types. *)
Lemma unique_types_overwrite (l : list PodCondition.t) i old c :
  l !! i = Some old → PodCondition.Type_ c = PodCondition.Type_ old →
  unique_types l → unique_types (<[i := c]> l).
Proof.
  unfold unique_types. intros Hi Hty Hnd.
  rewrite list_fmap_insert, Hty, list_insert_id; [done|].
  by rewrite list_lookup_fmap, Hi.
Qed.

End additions.


(** ** Lookups across an update

    How [first_match] and [absent] move when an entry is overwritten by
    one of its type, or an entry is appended: what [UpdatePodCondition]
    and [AddPodCondition] do to the sequence. *)

Section lookups_across_updates.

Implicit Types (l : list PodCondition.t) (ty : PodConditionType).
Implicit Types (s : PodStatus.t) (c old : PodCondition.t) (now : metav1.Time).

Lemma first_match_overwrite_here l ty i old c :
  first_match l ty i old → PodCondition.Type_ c = ty →
  first_match (<[i := c]> l) ty i c.
Proof.
  intros (Hi & Hty & Hbefore) Hc. split; [|split; [done|]].
  - apply list_lookup_insert_eq. by apply lookup_lt_Some in Hi.
  - intros j d Hj Hd. rewrite list_lookup_insert_ne in Hd by lia.
    by apply (Hbefore j).
Qed.

Lemma first_match_overwrite_other l ty i old c j e :
  l !! i = Some old → PodCondition.Type_ c = PodCondition.Type_ old →
  ty ≠ PodCondition.Type_ c →
  first_match l ty j e → first_match (<[i := c]> l) ty j e.
Proof.
  intros Hi Hc Hty (Hj & He & Hbefore).
  assert (i ≠ j) as Hij.
  { intros ->. rewrite Hj in Hi. injection Hi as ->. congruence. }
  split; [|split; [done|]].
  - by rewrite list_lookup_insert_ne.
  - intros j' d Hj' Hd. destruct (decide (i = j')) as [<-|Hne].
    + rewrite list_lookup_insert_eq in Hd by (by apply lookup_lt_Some in Hi).
      injection Hd as <-. congruence.
    + rewrite list_lookup_insert_ne in Hd by done. by apply (Hbefore j').
Qed.

Lemma absent_overwrite l ty i old c :
  l !! i = Some old → PodCondition.Type_ c = PodCondition.Type_ old →
  absent l ty → absent (<[i := c]> l) ty.
Proof.
  intros Hi Hc Habs d Hd. apply list_elem_of_lookup in Hd as (j & Hj).
  destruct (decide (i = j)) as [<-|Hne].
  - rewrite list_lookup_insert_eq in Hj by (by apply lookup_lt_Some in Hi).
    injection Hj as <-. rewrite Hc. apply Habs, list_elem_of_lookup. eauto.
  - rewrite list_lookup_insert_ne in Hj by done.
    apply Habs, list_elem_of_lookup. eauto.
Qed.

Lemma first_match_snoc_old l ty c j e :
  first_match l ty j e → first_match (l ++ [c]) ty j e.
Proof.
  intros (Hj & He & Hbefore). pose proof (lookup_lt_Some _ _ _ Hj) as Hlt.
  split; [|split; [done|]].
  - by rewrite lookup_app_l.
  - intros j' d Hj' Hd. rewrite lookup_app_l in Hd by lia. by apply (Hbefore j').
Qed.

Lemma first_match_snoc_new l c :
  absent l (PodCondition.Type_ c) →
  first_match (l ++ [c]) (PodCondition.Type_ c) (length l) c.
Proof.
  intros Habs. split; [|split; [done|]].
  - rewrite lookup_app_r by lia. by rewrite Nat.sub_diag.
  - intros j d Hj Hd. rewrite lookup_app_l in Hd by lia.
    apply Habs, list_elem_of_lookup. eauto.
Qed.

Lemma absent_snoc l ty c :
  absent l ty → PodCondition.Type_ c ≠ ty → absent (l ++ [c]) ty.
Proof.
  intros Habs Hc d Hd. apply elem_of_app in Hd as [Hd|Hd]; [by apply Habs|].
  by apply list_elem_of_singleton in Hd as ->.
Qed.

(** With at most one entry per type, every entry is the first of its type. *)
Lemma unique_types_first_match l j e :
  unique_types l → l !! j = Some e → first_match l (PodCondition.Type_ e) j e.
Proof.
  intros Huniq Hj. split; [done|]. split; [done|].
  intros j' d Hj' Hd Hty.
  assert (j' = j) as ->; [|lia].
  apply (NoDup_lookup _ _ _ (PodCondition.Type_ e) Huniq);
    rewrite list_lookup_fmap; [rewrite Hd | rewrite Hj]; cbn; congruence.
Qed.

(** The sequence is the same whether read from a lookup of a nil slice
    or of an empty one. *)
Lemma GetPodConditionFromList_elems (conditions : slice PodCondition.t) ty :
  GetPodConditionFromList (Some (elems conditions)) ty
  = GetPodConditionFromList conditions ty.
Proof. by destruct conditions. Qed.

(** Overwriting an entry by one of its type does not move the lookups
    of the other types. *)
Lemma GetPodConditionFromList_overwrite_other l ty i old c :
  l !! i = Some old → PodCondition.Type_ c = PodCondition.Type_ old →
  ty ≠ PodCondition.Type_ c →
  GetPodConditionFromList (Some (<[i := c]> l)) ty = GetPodConditionFromList (Some l) ty.
Proof.
  intros Hi Hc Hty.
  destruct (absent_or_first_match l ty) as [Habs|(j & e & Hfm)].
  - rewrite !GetPodConditionFromList_absent; [done..|].
    by apply (absent_overwrite _ _ _ old).
  - rewrite (GetPodConditionFromList_found (Some l) _ _ _ Hfm).
    apply GetPodConditionFromList_found.
    by apply (first_match_overwrite_other _ _ _ old).
Qed.

(** Appending an entry does not move the lookups of the other types. *)
Lemma GetPodConditionFromList_snoc_other l ty c :
  ty ≠ PodCondition.Type_ c →
  GetPodConditionFromList (Some (l ++ [c])) ty = GetPodConditionFromList (Some l) ty.
Proof.
  intros Hty.
  destruct (absent_or_first_match l ty) as [Habs|(j & e & Hfm)].
  - rewrite !GetPodConditionFromList_absent; [done..|].
    by apply absent_snoc.
  - rewrite (GetPodConditionFromList_found (Some l) _ _ _ Hfm).
    apply GetPodConditionFromList_found. by apply first_match_snoc_old.
Qed.

(** Overwriting an entry by one of its type keeps the position of the
    first entry of every type. *)
Lemma first_match_overwrite_same_type l ty k x y i e :
  l !! k = Some x → PodCondition.Type_ y = PodCondition.Type_ x →
  first_match l ty i e → ∃ e', first_match (<[k := y]> l) ty i e'.
Proof.
  intros Hk Hy Hfm. destruct (decide (k = i)) as [->|Hne].
  - exists y. apply (first_match_overwrite_here _ _ _ e); [done|].
    destruct Hfm as (Hi & Hty & _). rewrite Hi in Hk. injection Hk as ->.
    congruence.
  - exists e. destruct Hfm as (Hi & Hty & Hbefore). split; [|split; [done|]].
    + by rewrite list_lookup_insert_ne.
    + intros j d Hj Hd. destruct (decide (k = j)) as [<-|Hkj].
      * rewrite list_lookup_insert_eq in Hd by (by apply lookup_lt_Some in Hk).
        injection Hd as <-. rewrite Hy. by apply (Hbefore k).
      * rewrite list_lookup_insert_ne in Hd by done. by apply (Hbefore j).
Qed.

(** What every call of [UpdatePodCondition] leaves when its pointers
    designate a status and a condition [c]: the condition [c'], which is
    [c] up to its transition time, in the caller's cell and as the first
    entry of its type; the types of the entries that were there, and the
    lookups of the other types, as they were. *)
Lemma UpdatePodCondition_result now s r c :
  content s r = Some c →
  ∃ (changed : bool) (l' : list PodCondition.t) (i : nat) (c' : PodCondition.t),
    UpdatePodCondition now (Some s) (Some r)
      = (Ret changed,
         Memory (Some (PodStatus.mk (PodStatus.Phase s) (Some l')))
                (Some (holding r c'))) ∧
    first_match l' (PodCondition.Type_ c) i c' ∧
    content (PodStatus.mk (PodStatus.Phase s) (Some l')) (holding r c') = Some c' ∧
    c' = with_LastTransitionTime (PodCondition.LastTransitionTime c') c ∧
    (PodCondition.Type_ <$> l' = PodCondition.Type_ <$> elems (PodStatus.Conditions s) ∨
     absent (elems (PodStatus.Conditions s)) (PodCondition.Type_ c) ∧
     PodCondition.Type_ <$> l' =
       (PodCondition.Type_ <$> elems (PodStatus.Conditions s)) ++ [PodCondition.Type_ c]) ∧
    (∀ ty, ty ≠ PodCondition.Type_ c →
       GetPodConditionFromList (Some l') ty
       = GetPodConditionFromList (PodStatus.Conditions s) ty).
Proof.
  intros Hc. set (l := elems (PodStatus.Conditions s)).
  destruct r as [c0|k]; cbn in Hc.
  - injection Hc as ->.
    destruct (absent_or_first_match l (PodCondition.Type_ c)) as [Habs|(i & old & Hfm)].
    + eexists _, _, (length l), _.
      split; [by apply UpdatePodCondition_separate_absent|].
      split; [by apply (first_match_snoc_new _ (with_LastTransitionTime now c))|].
      split; [done|]. split; [done|]. split.
      * right. split; [done|]. by rewrite fmap_app.
      * intros ty Hty.
        rewrite (GetPodConditionFromList_snoc_other _ ty
                   (with_LastTransitionTime now c) Hty).
        apply GetPodConditionFromList_elems.
    + eexists _, _, i, _.
      split; [by apply (UpdatePodCondition_separate_found _ _ _ i old)|].
      split; [by apply (first_match_overwrite_here _ _ _ old)|].
      split; [done|]. split; [done|].
      destruct Hfm as (Hi & Hold & _). split.
      * left. rewrite list_fmap_insert. apply list_insert_id.
        rewrite list_lookup_fmap. fold l. rewrite Hi. cbn. by rewrite Hold.
      * intros ty Hty.
        rewrite (GetPodConditionFromList_overwrite_other _ _ _ old); [|done..].
        apply GetPodConditionFromList_elems.
  - fold l in Hc. pose proof (lookup_lt_Some _ _ _ Hc) as Hk.
    assert (<[k := with_LastTransitionTime now c]> l !! k
            = Some (with_LastTransitionTime now c)) as Hk1
      by (by apply list_lookup_insert_eq).
    destruct (absent_or_first_match (<[k := with_LastTransitionTime now c]> l)
                (PodCondition.Type_ c)) as [Habs|(i & old & Hfm)].
    { destruct (Habs (with_LastTransitionTime now c)); [|done].
      apply list_elem_of_lookup. eauto. }
    set (c' := stored_condition now old c).
    assert (<[k := c']> l !! k = Some c') as Hk2 by (by apply list_lookup_insert_eq).
    destruct (first_match_overwrite_same_type _ _ k _ c' _ _ Hk1 eq_refl Hfm)
      as [old2 Hfm2]. rewrite list_insert_insert_eq in Hfm2.
    pose proof Hfm2 as (Hi2 & Hold2 & _).
    eexists _, _, i, c'.
    split; [by apply (UpdatePodCondition_stored now s k c i old)|].
    split; [by apply (first_match_overwrite_here _ _ _ old2)|].
    split.
    { cbn. destruct (decide (i = k)) as [->|Hne].
      - apply list_lookup_insert_eq. rewrite length_insert. exact Hk.
      - by rewrite list_lookup_insert_ne. }
    split; [done|]. split.
    + left. rewrite !list_fmap_insert.
      rewrite (list_insert_id _ k) by (by rewrite list_lookup_fmap; fold l; rewrite Hc).
      apply list_insert_id. rewrite list_lookup_fmap.
      apply (f_equal (fmap PodCondition.Type_)) in Hi2.
      rewrite <- list_lookup_fmap, list_fmap_insert in Hi2.
      rewrite (list_insert_id _ k) in Hi2
        by (by rewrite list_lookup_fmap; fold l; rewrite Hc).
      rewrite list_lookup_fmap in Hi2. rewrite Hi2. cbn. by rewrite Hold2.
    + intros ty Hty.
      assert (PodCondition.Type_ c' = PodCondition.Type_ c) as Hc' by done.
      change (GetPodConditionFromList (Some (<[i := c']> (<[k := c']> l))) ty
              = GetPodConditionFromList (PodStatus.Conditions s) ty).
      rewrite (GetPodConditionFromList_overwrite_other _ ty i old2 c' Hi2);
        [|congruence..].
      rewrite (GetPodConditionFromList_overwrite_other _ ty k c c' Hc);
        [|congruence..].
      apply GetPodConditionFromList_elems.
Qed.

End lookups_across_updates.

Section calls.

Implicit Types (s : PodStatus.t) (c old : PodCondition.t) (now : metav1.Time).
Implicit Types (l : list PodCondition.t) (r : condition_ref).

(** The two ways a call of [UpdatePodCondition] goes, by what the lookup
    finds in the conditions as they are after the stamp. *)
Lemma UpdatePodCondition_cases now s r c :
  content s r = Some c →
  (r = Separate c ∧
   absent (elems (PodStatus.Conditions s)) (PodCondition.Type_ c) ∧
   UpdatePodCondition now (Some s) (Some r) =
     (Ret true,
      Memory
        (Some (PodStatus.mk (PodStatus.Phase s)
                 (Some (elems (PodStatus.Conditions s) ++
                        [with_LastTransitionTime now c]))))
        (Some (Separate (with_LastTransitionTime now c))))) ∨
  (∃ (i : nat) (old : PodCondition.t),
     first_match
       (written r (with_LastTransitionTime now c) (elems (PodStatus.Conditions s)))
       (PodCondition.Type_ c) i old ∧
     UpdatePodCondition now (Some s) (Some r) =
       (Ret (negb (same_observation c old)),
        Memory
          (Some (PodStatus.mk (PodStatus.Phase s)
                   (Some (<[i := stored_condition now old c]>
                            (written r (stored_condition now old c)
                               (elems (PodStatus.Conditions s)))))))
          (Some (holding r (stored_condition now old c))))).
Proof.
  intros Hc. destruct r as [c0|k]; cbn in Hc.
  - injection Hc as ->.
    destruct (absent_or_first_match (elems (PodStatus.Conditions s))
                (PodCondition.Type_ c)) as [Habs|(i & old & Hfm)].
    + left. split; [done|]. split; [done|].
      by apply UpdatePodCondition_separate_absent.
    + right. exists i, old. split; [done|].
      by apply UpdatePodCondition_separate_found.
  - right.
    destruct (absent_or_first_match
                (<[k := with_LastTransitionTime now c]> (elems (PodStatus.Conditions s)))
                (PodCondition.Type_ c)) as [Habs|(i & old & Hfm)].
    + destruct (Habs (with_LastTransitionTime now c)); [|done].
      apply list_elem_of_lookup. exists k. apply list_lookup_insert_eq.
      by apply lookup_lt_Some in Hc.
    + exists i, old. split; [done|]. by apply UpdatePodCondition_stored.
Qed.

(** The two ways a call of [AddPodCondition] goes. *)
Lemma AddPodCondition_cases now s r c :
  content s r = Some c →
  (r = Separate c ∧
   absent (elems (PodStatus.Conditions s)) (PodCondition.Type_ c) ∧
   AddPodCondition now (Some s) (Some r) =
     (Ret true,
      Memory
        (Some (PodStatus.mk (PodStatus.Phase s)
                 (Some (elems (PodStatus.Conditions s) ++
                        [with_LastTransitionTime now c]))))
        (Some (Separate (with_LastTransitionTime now c))))) ∨
  ((∃ (i : nat) (old : PodCondition.t),
      first_match (elems (PodStatus.Conditions s)) (PodCondition.Type_ c) i old) ∧
   AddPodCondition now (Some s) (Some r) = (Ret false, Memory (Some s) (Some r))).
Proof.
  intros Hc.
  destruct (absent_or_first_match (elems (PodStatus.Conditions s))
              (PodCondition.Type_ c)) as [Habs|(i & old & Hfm)].
  - destruct r as [c0|k].
    + injection Hc as ->. left. split; [done|]. split; [done|].
      by apply AddPodCondition_absent.
    + by destruct (content_Stored_not_absent _ _ _ Hc).
  - right. split; [by eauto|]. by apply (AddPodCondition_found now s r c i old).
Qed.

(** On a nil status both helpers panic after the condition in a cell of
    its own has been stamped. *)
Lemma nil_status_panics_after_stamp now c :
  UpdatePodCondition now None (Some (Separate c))
    = (Panic, Memory None (Some (Separate (with_LastTransitionTime now c)))) ∧
  AddPodCondition now None (Some (Separate c))
    = (Panic, Memory None (Some (Separate (with_LastTransitionTime now c)))).
Proof. done. Qed.

(** The stored condition is the entry found exactly when nothing the
    comparison looks at differs. *)
Lemma stored_condition_is_old now old c :
  PodCondition.Type_ old = PodCondition.Type_ c →
  stored_condition now old c = old ↔ same_observation c old = true.
Proof.
  intros Hty. rewrite same_observation_true. split.
  - intros Heq.
    assert (PodCondition.Status c = PodCondition.Status old) as Hs
      by (by rewrite <- Heq).
    rewrite stored_condition_same_status in Heq by done.
    destruct c, old; cbn in *. by injection Heq as _ _ -> -> ->.
  - intros (Hs & Hr & Hm & Hp).
    rewrite stored_condition_same_status by done.
    destruct c, old; cbn in *. by subst.
Qed.

End calls.

(** ** The properties of the specification *)

(** C1: the claim fails at a call whose condition pointer designates the
    entry of its type in the status, [UpdatePodCondition(&status,
    &status.Conditions[1])]: the entry is stamped where it is stored
    before the lookup, so the call answers "unchanged" although the
    transition time stored is no longer the one of the entry that was
    there, 100, but the current time, 1000. *)
Theorem UpdatePodCondition_stored_entry_reported_unchanged :
  elems (PodStatus.Conditions sample_status) !! 1%nat
    = Some (PodCondition.mk "Ready" "False" 7 100 "Probing" "waiting") ∧
  UpdatePodCondition 1000 (Some sample_status) (Some (Stored 1)) =
    (Ret false,
     Memory
       (Some (PodStatus.mk "Running"
                (Some [PodCondition.mk "PodScheduled" "True" 3 50 "Bound" "";
                       PodCondition.mk "Ready" "False" 7 1000 "Probing" "waiting"])))
       (Some (Stored 1))).
Proof. split; reflexivity. Qed.

(** C2: the claim fails whenever the condition pointer designates the
    first entry of its type in the status: the status of the condition
    is the status of that entry, yet the entry does not keep its
    transition time; it is stored with the current time, everything else
    as it was, and the call answers false. *)
Theorem UpdatePodCondition_stored_entry_restamped
    (now : metav1.Time) (s : PodStatus.t) (k : nat) (c : PodCondition.t) :
  first_match (elems (PodStatus.Conditions s)) (PodCondition.Type_ c) k c →
  UpdatePodCondition now (Some s) (Some (Stored k)) =
    (Ret false,
     Memory
       (Some (PodStatus.mk (PodStatus.Phase s)
                (Some (<[k := PodCondition.mk (PodCondition.Type_ c)
                                (PodCondition.Status c) (PodCondition.LastProbeTime c)
                                now (PodCondition.Reason c) (PodCondition.Message c)]>
                         (elems (PodStatus.Conditions s))))))
       (Some (Stored k))).
Proof.
  intros Hfm. pose proof Hfm as (Hk & _ & _).
  rewrite (UpdatePodCondition_stored now s k c k (with_LastTransitionTime now c) Hk).
  - assert (same_observation c (with_LastTransitionTime now c) = true) as ->
      by (by apply same_observation_true).
    rewrite stored_condition_same_status by done. cbn.
    by rewrite list_insert_insert_eq.
  - by apply (first_match_overwrite_here _ _ _ c).
Qed.

Lemma UpdatePodCondition_stored_entry_restamped_witness :
  first_match (elems (PodStatus.Conditions sample_status)) "Ready" 1 sample_not_ready ∧
  PodCondition.LastTransitionTime sample_not_ready = 100 ∧
  UpdatePodCondition 1000 (Some sample_status) (Some (Stored 1)) =
    (Ret false,
     Memory
       (Some (PodStatus.mk "Running"
                (Some [sample_scheduled;
                       PodCondition.mk "Ready" "False" 7 1000 "Probing" "waiting"])))
       (Some (Stored 1))).
Proof.
  assert (first_match (elems (PodStatus.Conditions sample_status))
            (PodCondition.Type_ sample_not_ready) 1 sample_not_ready) as Hfm
    by (apply first_match_of_range; reflexivity).
  split; [exact Hfm|]. split; [reflexivity|].
  exact (UpdatePodCondition_stored_entry_restamped 1000 sample_status 1
           sample_not_ready Hfm).
Defined.

(** C3, as stated, fails: the predicates read fields of the pod they are
    given, and [UpdatePodCondition] and [AddPodCondition] read the
    conditions of the status they are given, without a nil test; on a nil
    pod or a nil status they panic. *)
Lemma nil_reference_panics :
  IsPodRunning None = Panic ∧
  IsPodActive None = Panic ∧
  IsPodReady None = Panic ∧
  fst (UpdatePodCondition sample_now None (Some (Separate sample_ready))) = Panic ∧
  fst (AddPodCondition sample_now None (Some (Separate sample_ready))) = Panic.
Proof. repeat split; reflexivity. Qed.

(** C3, amended: on references that are not nil every helper returns, the
    sequences being nil or not, and the condition in a cell of its own or
    an entry of the status; the two lookups also return, with the
    "not found" pair, on a nil status and on a nil sequence;
    [GetPodNames] returns the empty sequence on a nil one. *)
Theorem helpers_return_on_non_nil_references
    (now : metav1.Time) (pods : list Pod.t) (pod : Pod.t)
    (s : PodStatus.t) (c : PodCondition.t) (spec : PodSpec.t)
    (ty : PodConditionType) :
  (∃ names, GetPodNames (Some (Some <$> pods)) = Ret names) ∧
  GetPodNames None = Ret (Some []) ∧
  (∃ b, IsPodRunning (Some pod) = Ret b) ∧
  (∃ b, IsPodActive (Some pod) = Ret b) ∧
  (∃ b, IsPodReady (Some pod) = Ret b) ∧
  GetPodCondition None ty = (-1, None) ∧
  GetPodConditionFromList None ty = (-1, None) ∧
  GetPodReadyCondition (PodStatus.mk (PodStatus.Phase s) None) = None ∧
  IsPodReadyConditionTrue (PodStatus.mk (PodStatus.Phase s) None) = false ∧
  (∃ b m, UpdatePodCondition now (Some s) (Some (Separate c)) = (Ret b, m)) ∧
  (∃ b m, AddPodCondition now (Some s) (Some (Separate c)) = (Ret b, m)) ∧
  (∀ k : nat, is_Some (elems (PodStatus.Conditions s) !! k) →
     (∃ b m, UpdatePodCondition now (Some s) (Some (Stored k)) = (Ret b, m)) ∧
     (∃ b m, AddPodCondition now (Some s) (Some (Stored k)) = (Ret b, m))) ∧
  (∃ r, AddPodReadinessGate (Some spec) ty = Ret r).
Proof.
  assert (∀ r c0, content s r = Some c0 →
            (∃ b m, UpdatePodCondition now (Some s) (Some r) = (Ret b, m)) ∧
            (∃ b m, AddPodCondition now (Some s) (Some r) = (Ret b, m))) as Hreturns.
  { intros r c0 Hc0. split.
    - destruct (UpdatePodCondition_cases now s r c0 Hc0)
        as [(_ & _ & ->)|(i & old & _ & ->)]; by eexists _, _.
    - destruct (AddPodCondition_cases now s r c0 Hc0)
        as [(_ & _ & ->)|(_ & ->)]; by eexists _, _. }
  split.
  { unfold GetPodNames. cbn [elems].
    generalize (@nil string). induction pods as [|p pods IH]; intros acc.
    - by eexists.
    - cbn. apply IH. }
  do 8 (split; [by eauto|]).
  split; [exact (proj1 (Hreturns (Separate c) c eq_refl))|].
  split; [exact (proj2 (Hreturns (Separate c) c eq_refl))|].
  split.
  - intros k [c0 Hk]. exact (Hreturns (Stored k) c0 Hk).
  - unfold AddPodReadinessGate. cbn.
    destruct (AddPodReadinessGate_range _ _); by eexists.
Qed.

Lemma helpers_return_on_non_nil_references_witness :
  (∃ b m, UpdatePodCondition 1000 (Some sample_status) (Some (Stored 1)) = (Ret b, m)) ∧
  (∃ b m, AddPodCondition 1000 (Some sample_status) (Some (Stored 1)) = (Ret b, m)).
Proof.
  apply (helpers_return_on_non_nil_references 1000 [] sample_pod sample_status
           sample_ready sample_spec PodReady).
  exists sample_not_ready. reflexivity.
Defined.

(** C4: [GetPodCondition] and [GetPodConditionFromList] answer (-1, nil)
    on a nil status, on a nil sequence, on the empty sequence and when no
    entry has the type; otherwise they answer the first entry of the
    type, in the order of the sequence, with its position. *)
Theorem GetPodCondition_sentinel_or_first_match
    (s : PodStatus.t) (conditions : slice PodCondition.t)
    (ty : PodConditionType) :
  GetPodCondition None ty = (-1, None) ∧
  GetPodConditionFromList None ty = (-1, None) ∧
  GetPodConditionFromList (Some []) ty = (-1, None) ∧
  GetPodCondition (Some s) ty = GetPodConditionFromList (PodStatus.Conditions s) ty ∧
  ((absent (elems conditions) ty ∧
    GetPodConditionFromList conditions ty = (-1, None)) ∨
   (∃ (i : nat) (c : PodCondition.t),
      first_match (elems conditions) ty i c ∧
      GetPodConditionFromList conditions ty = (Z.of_nat i, Some c))).
Proof.
  do 4 (split; [done|]).
  destruct (absent_or_first_match (elems conditions) ty)
    as [Habs|(i & c & Hfm)].
  - left. split; [done|]. by apply GetPodConditionFromList_absent.
  - right. exists i, c. split; [done|]. by apply GetPodConditionFromList_found.
Qed.

(** The first of two entries of a type is the one found. *)
Example GetPodConditionFromList_duplicate :
  GetPodConditionFromList
    (Some [sample_scheduled; sample_not_ready; sample_ready]) PodReady
  = (1, Some sample_not_ready).
Proof. reflexivity. Qed.

(** C5: [AddPodCondition] answers false and leaves the status (and so
    every entry and the length of its condition list) and the condition
    as they were when an entry of the type exists; otherwise it stamps
    the new condition with the current time, appends it and answers true,
    after which adding a condition of that type again answers false and
    changes nothing. *)
Theorem AddPodCondition_adds_if_absent
    (now : metav1.Time) (s : PodStatus.t) (c : PodCondition.t) :
  (∀ r : condition_ref,
     content s r = Some c →
     (∃ c0, c0 ∈ elems (PodStatus.Conditions s) ∧
            PodCondition.Type_ c0 = PodCondition.Type_ c) →
     AddPodCondition now (Some s) (Some r) = (Ret false, Memory (Some s) (Some r))) ∧
  (absent (elems (PodStatus.Conditions s)) (PodCondition.Type_ c) →
   ∃ (s' : PodStatus.t) (c' : PodCondition.t),
     AddPodCondition now (Some s) (Some (Separate c))
       = (Ret true, Memory (Some s') (Some (Separate c'))) ∧
     PodCondition.LastTransitionTime c' = now ∧
     c' = PodCondition.mk (PodCondition.Type_ c) (PodCondition.Status c)
            (PodCondition.LastProbeTime c) now
            (PodCondition.Reason c) (PodCondition.Message c) ∧
     s' = PodStatus.mk (PodStatus.Phase s)
            (Some (elems (PodStatus.Conditions s) ++ [c'])) ∧
     ∀ (later : metav1.Time) (r2 : condition_ref) (c2 : PodCondition.t),
       content s' r2 = Some c2 →
       PodCondition.Type_ c2 = PodCondition.Type_ c →
       AddPodCondition later (Some s') (Some r2)
         = (Ret false, Memory (Some s') (Some r2))).
Proof.
  split.
  - intros r Hc Hex. apply first_match_exists in Hex as (i & old & Hfm).
    by apply (AddPodCondition_found now s r c i old).
  - intros Habs. eexists _, _. split; [by apply AddPodCondition_absent|].
    split; [done|]. split; [done|]. split; [done|].
    intros later r2 c2 Hc2 Hty.
    destruct (AddPodCondition_cases later _ r2 c2 Hc2)
      as [(_ & Habs2 & _)|(_ & Hrun)]; [|exact Hrun].
    destruct (Habs2 (with_LastTransitionTime now c)); [|by rewrite Hty].
    cbn. apply elem_of_app. right. by apply list_elem_of_singleton.
Qed.

Lemma AddPodCondition_adds_if_absent_witness :
  AddPodCondition 1000 (Some sample_status) (Some (Separate sample_ready))
    = (Ret false, Memory (Some sample_status) (Some (Separate sample_ready))) ∧
  AddPodCondition 1000 (Some sample_status) (Some (Stored 1))
    = (Ret false, Memory (Some sample_status) (Some (Stored 1))) ∧
  ∃ s' : PodStatus.t,
    AddPodCondition 1000 (Some sample_status) (Some (Separate sample_initialized)) =
      (Ret true,
       Memory (Some s')
         (Some (Separate (PodCondition.mk "Initialized" "True" 4 1000 "" "")))) ∧
    s' = PodStatus.mk "Running"
           (Some [sample_scheduled; sample_not_ready;
                  PodCondition.mk "Initialized" "True" 4 1000 "" ""]) ∧
    AddPodCondition 2000 (Some s') (Some (Separate sample_initialized))
      = (Ret false, Memory (Some s') (Some (Separate sample_initialized))).
Proof.
  assert (∃ c0, c0 ∈ elems (PodStatus.Conditions sample_status) ∧
                PodCondition.Type_ c0 = "Ready") as Hex.
  { exists sample_not_ready. split; [|reflexivity].
    apply list_elem_of_In. simpl. tauto. }
  split; [|split].
  - apply (proj1 (AddPodCondition_adds_if_absent 1000 sample_status sample_ready)
             (Separate sample_ready)); [reflexivity | exact Hex].
  - apply (proj1 (AddPodCondition_adds_if_absent 1000 sample_status sample_not_ready)
             (Stored 1)); [reflexivity | exact Hex].
  - destruct (proj2 (AddPodCondition_adds_if_absent
                       1000 sample_status sample_initialized))
      as (s' & c' & Hrun & _ & Hc' & Hs' & Hagain).
    { apply absent_of_range. reflexivity. }
    exists s'. rewrite Hc' in Hrun, Hs'. split; [exact Hrun|]. split; [exact Hs'|].
    apply (Hagain 2000 (Separate sample_initialized) sample_initialized);
      reflexivity.
Defined.

(** C6: [AddPodReadinessGate] answers false and leaves the gates as they
    were when one of them wraps the type; otherwise it appends one gate
    wrapping the type at the end and answers true. *)
Theorem AddPodReadinessGate_adds_if_absent
    (spec : PodSpec.t) (ty : PodConditionType) :
  ((∃ rg, rg ∈ elems (PodSpec.ReadinessGates spec) ∧
          PodReadinessGate.ConditionType rg = ty) →
   AddPodReadinessGate (Some spec) ty = Ret (false, spec)) ∧
  (gate_absent (elems (PodSpec.ReadinessGates spec)) ty →
   AddPodReadinessGate (Some spec) ty =
     Ret (true,
          PodSpec.mk (Some (elems (PodSpec.ReadinessGates spec) ++
                            [PodReadinessGate.mk ty])))).
Proof.
  unfold AddPodReadinessGate. cbn. split.
  - intros Hex. apply AddPodReadinessGate_range_true in Hex. by rewrite Hex.
  - intros Habs. apply AddPodReadinessGate_range_false in Habs. by rewrite Habs.
Qed.

Lemma AddPodReadinessGate_adds_if_absent_witness :
  AddPodReadinessGate (Some sample_spec) "example.com/gate"
    = Ret (false, sample_spec) ∧
  AddPodReadinessGate (Some sample_spec) "example.com/other"
    = Ret (true,
           PodSpec.mk (Some [PodReadinessGate.mk "example.com/gate";
                             PodReadinessGate.mk "example.com/other"])).
Proof.
  split.
  - apply (proj1 (AddPodReadinessGate_adds_if_absent sample_spec "example.com/gate")).
    exists (PodReadinessGate.mk "example.com/gate"). split; [|reflexivity].
    apply list_elem_of_In. simpl. tauto.
  - apply (proj2 (AddPodReadinessGate_adds_if_absent sample_spec "example.com/other")).
    apply AddPodReadinessGate_range_false. reflexivity.
Defined.

(** C7: a condition sequence with at most one entry per type still has
    at most one after [UpdatePodCondition] and after [AddPodCondition],
    whether the condition is in a cell of its own or an entry of the
    sequence, and a gate sequence with at most one gate per condition
    type still has at most one after [AddPodReadinessGate]. *)
Theorem unique_entries_preserved
    (now : metav1.Time) (s : PodStatus.t) (r : condition_ref)
    (spec : PodSpec.t) (ty : PodConditionType) :
  (is_Some (content s r) →
   unique_types (elems (PodStatus.Conditions s)) →
   ∃ (changed : bool) (s' : PodStatus.t) (r' : condition_ref),
     UpdatePodCondition now (Some s) (Some r)
       = (Ret changed, Memory (Some s') (Some r')) ∧
     unique_types (elems (PodStatus.Conditions s'))) ∧
  (is_Some (content s r) →
   unique_types (elems (PodStatus.Conditions s)) →
   ∃ (added : bool) (s' : PodStatus.t) (r' : condition_ref),
     AddPodCondition now (Some s) (Some r)
       = (Ret added, Memory (Some s') (Some r')) ∧
     unique_types (elems (PodStatus.Conditions s'))) ∧
  (unique_gates (elems (PodSpec.ReadinessGates spec)) →
   ∃ (added : bool) (spec' : PodSpec.t),
     AddPodReadinessGate (Some spec) ty = Ret (added, spec') ∧
     unique_gates (elems (PodSpec.ReadinessGates spec'))).
Proof.
  split; [|split].
  - intros [c Hc] Huniq.
    destruct (UpdatePodCondition_result now s r c Hc)
      as (changed & l' & i & c' & Hrun & _ & _ & _ & Htypes & _).
    eexists _, _, _. split; [exact Hrun|]. unfold unique_types in *. cbn.
    destruct Htypes as [->|[Habs ->]]; [done|].
    apply NoDup_snoc_fresh; [done|]. by apply absent_not_elem_of.
  - intros [c Hc] Huniq.
    destruct (AddPodCondition_cases now s r c Hc)
      as [(_ & Habs & ->)|(_ & ->)]; eexists _, _, _; (split; [done|]); [|done].
    cbn. by apply (unique_types_snoc _ (with_LastTransitionTime now c)).
  - intros Huniq. unfold AddPodReadinessGate. cbn.
    destruct (AddPodReadinessGate_range _ _) eqn:Hscan.
    + by eexists _, _.
    + eexists _, _. split; [done|]. cbn. unfold unique_gates.
      rewrite fmap_app. cbn. apply NoDup_snoc_fresh; [done|].
      by apply gate_absent_not_elem_of, AddPodReadinessGate_range_false.
Qed.

Lemma unique_entries_preserved_witness :
  (∃ (changed : bool) (s' : PodStatus.t) (r' : condition_ref),
     UpdatePodCondition sample_now (Some sample_status) (Some (Separate sample_ready))
       = (Ret changed, Memory (Some s') (Some r')) ∧
     unique_types (elems (PodStatus.Conditions s'))) ∧
  (∃ (changed : bool) (s' : PodStatus.t) (r' : condition_ref),
     UpdatePodCondition sample_now (Some sample_status) (Some (Stored 1))
       = (Ret changed, Memory (Some s') (Some r')) ∧
     unique_types (elems (PodStatus.Conditions s'))) ∧
  (∃ (added : bool) (s' : PodStatus.t) (r' : condition_ref),
     AddPodCondition sample_now (Some sample_status) (Some (Separate sample_initialized))
       = (Ret added, Memory (Some s') (Some r')) ∧
     unique_types (elems (PodStatus.Conditions s'))) ∧
  (∃ (added : bool) (spec' : PodSpec.t),
     AddPodReadinessGate (Some sample_spec) "example.com/other" = Ret (added, spec') ∧
     unique_gates (elems (PodSpec.ReadinessGates spec'))).
Proof.
  assert (unique_types (elems (PodStatus.Conditions sample_status))) as Hconds.
  { unfold unique_types. cbn. apply (bool_decide_unpack _). vm_compute. exact I. }
  assert (unique_gates (elems (PodSpec.ReadinessGates sample_spec))) as Hgates.
  { unfold unique_gates. cbn. apply (bool_decide_unpack _). vm_compute. exact I. }
  split; [|split; [|split]].
  - apply (proj1 (unique_entries_preserved sample_now sample_status
                    (Separate sample_ready) sample_spec "example.com/other"));
      [by eexists | exact Hconds].
  - apply (proj1 (unique_entries_preserved sample_now sample_status
                    (Stored 1) sample_spec "example.com/other"));
      [by eexists | exact Hconds].
  - apply (proj1 (proj2 (unique_entries_preserved sample_now sample_status
                           (Separate sample_initialized) sample_spec
                           "example.com/other")));
      [by eexists | exact Hconds].
  - exact (proj2 (proj2 (unique_entries_preserved sample_now sample_status
                           (Separate sample_ready) sample_spec "example.com/other"))
             Hgates).
Defined.

(** The names [GetPodNames] collects from references that are not nil. *)
Lemma GetPodNames_range_names (pods : list Pod.t) (result : list string) :
  GetPodNames_range (Some <$> pods) result = Ret (result ++ (Pod.Name <$> pods)).
Proof.
  revert result. induction pods as [|p pods IH]; intros result; cbn.
  - by rewrite app_nil_r.
  - rewrite IH. by rewrite <- app_assoc.
Qed.

(** C8: [GetPodNames] returns as many names as it is given pods, the i-th
    being the name of the i-th pod; the empty sequence gives the empty
    sequence. *)
Theorem GetPodNames_names (pods : list Pod.t) :
  (∃ names : list string,
     GetPodNames (Some (Some <$> pods)) = Ret (Some names) ∧
     length names = length pods ∧
     (∀ i : nat, names !! i = Pod.Name <$> pods !! i) ∧
     names = Pod.Name <$> pods) ∧
  GetPodNames (Some []) = Ret (Some []) ∧
  GetPodNames None = Ret (Some []).
Proof.
  split; [|done].
  exists (Pod.Name <$> pods). unfold GetPodNames. cbn [elems].
  rewrite GetPodNames_range_names. cbn.
  split; [done|]. split; [by rewrite length_fmap|].
  split; [|done]. intros i. by rewrite list_lookup_fmap.
Qed.

(** C9: [IsPodActive] answers true exactly for a pod whose phase is
    neither Succeeded nor Failed and whose deletion timestamp is nil or
    the zero time. *)
Theorem IsPodActive_iff (pod : Pod.t) :
  ∃ b : bool,
    IsPodActive (Some pod) = Ret b ∧
    (b = true ↔
       PodStatus.Phase (Pod.Status pod) ≠ PodSucceeded ∧
       PodStatus.Phase (Pod.Status pod) ≠ PodFailed ∧
       (Pod.DeletionTimestamp pod = None ∨ Pod.DeletionTimestamp pod = Some 0)) ∧
    (PodStatus.Phase (Pod.Status pod) = PodSucceeded ∨
     PodStatus.Phase (Pod.Status pod) = PodFailed → b = false) ∧
    (PodStatus.Phase (Pod.Status pod) ≠ PodSucceeded →
     PodStatus.Phase (Pod.Status pod) ≠ PodFailed →
     Pod.DeletionTimestamp pod = None ∨ Pod.DeletionTimestamp pod = Some 0 →
     b = true).
Proof.
  eexists. split; [reflexivity|].
  assert (metav1.IsZero (Pod.DeletionTimestamp pod) = true ↔
          Pod.DeletionTimestamp pod = None ∨ Pod.DeletionTimestamp pod = Some 0)
    as Hzero.
  { destruct (Pod.DeletionTimestamp pod) as [t|]; cbn.
    - rewrite Z.eqb_eq. split; [intros ->; by right | by intros [?|[= ->]]].
    - split; [by left | done]. }
  rewrite !andb_true_iff, !negb_true_iff, !String.eqb_neq, Hzero.
  split; [tauto|]. split; [|tauto].
  intros Hdone. apply not_true_iff_false.
  rewrite !andb_true_iff, !negb_true_iff, !String.eqb_neq. tauto.
Qed.

Lemma IsPodActive_iff_witness :
  IsPodActive (Some sample_pod) = Ret true ∧
  IsPodActive (Some (Pod.mk "job-1" None sample_spec (PodStatus.mk PodSucceeded None)))
    = Ret false ∧
  IsPodActive (Some (Pod.mk "web-1" (Some 1700) sample_spec sample_status))
    = Ret false.
Proof.
  split; [|split].
  - destruct (IsPodActive_iff sample_pod) as (b & -> & _ & _ & Hactive).
    f_equal. apply Hactive; [discriminate.. | by left].
  - destruct (IsPodActive_iff
                (Pod.mk "job-1" None sample_spec (PodStatus.mk PodSucceeded None)))
      as (b & -> & _ & Hdone & _).
    f_equal. apply Hdone. by left.
  - destruct (IsPodActive_iff (Pod.mk "web-1" (Some 1700) sample_spec sample_status))
      as (b & -> & Hiff & _ & _).
    f_equal. apply not_true_iff_false. intros Hb.
    apply Hiff in Hb as (_ & _ & [Hnil|Hzero]); discriminate.
Defined.




(** ** The scenario of the specification

    A running pod with the single condition Ready=False is not ready;
    recording Ready=True is a change, stores the condition stamped with
    the current time, and the pod is ready afterwards. *)
Example scenario_not_ready_then_ready :
  let status := PodStatus.mk "Running" (Some [sample_not_ready]) in
  let pod := Pod.mk "web-0" None sample_spec status in
  let stored := PodCondition.mk "Ready" "True" 9 1000 "Probing" "ok" in
  let status' := PodStatus.mk "Running" (Some [stored]) in
  IsPodRunning (Some pod) = Ret true ∧
  IsPodReady (Some pod) = Ret false ∧
  UpdatePodCondition 1000 (Some status) (Some (Separate sample_ready))
    = (Ret true, Memory (Some status') (Some (Separate stored))) ∧
  IsPodReady (Some (Pod.mk "web-0" None sample_spec status')) = Ret true.
Proof. repeat split; reflexivity. Qed.

(** A pod being deleted is not running. *)
Example IsPodRunning_deleting :
  IsPodRunning (Some (Pod.mk "web-1" (Some 1700) sample_spec sample_status))
  = Ret false.
Proof. reflexivity. Qed.

(** One nil reference among the pods makes [GetPodNames] panic. *)
Example GetPodNames_nil_reference :
  GetPodNames (Some [Some sample_pod; None]) = Panic.
Proof. reflexivity. Qed.

(** With two conditions of a type, only the first is replaced; when the
    condition pointer designates the second, that one is stamped too. *)
Example UpdatePodCondition_duplicate :
  UpdatePodCondition 1000 (Some sample_status_twice_ready)
    (Some (Separate sample_ready))
  = (Ret true,
     Memory
       (Some (PodStatus.mk "Running"
                (Some [PodCondition.mk "Ready" "True" 9 1000 "Probing" "ok";
                       sample_ready])))
       (Some (Separate (PodCondition.mk "Ready" "True" 9 1000 "Probing" "ok")))) ∧
  UpdatePodCondition 1000 (Some sample_status_twice_ready) (Some (Stored 1))
  = (Ret true,
     Memory
       (Some (PodStatus.mk "Running"
                (Some [PodCondition.mk "Ready" "True" 9 1000 "Probing" "ok";
                       PodCondition.mk "Ready" "True" 9 1000 "Probing" "ok"])))
       (Some (Stored 1))).
Proof. split; reflexivity. Qed.
(** ** Further properties of the helpers *)

(** X1: [IsPodRunning] answers true exactly for a pod whose deletion
    timestamp is nil or the zero time and whose phase is Running. *)
Theorem IsPodRunning_iff (pod : Pod.t) :
  ∃ b : bool,
    IsPodRunning (Some pod) = Ret b ∧
    (b = true ↔
       (Pod.DeletionTimestamp pod = None ∨ Pod.DeletionTimestamp pod = Some 0) ∧
       PodStatus.Phase (Pod.Status pod) = PodRunning).
Proof.
  eexists. split; [reflexivity|].
  rewrite andb_true_iff, String.eqb_eq.
  destruct (Pod.DeletionTimestamp pod) as [t|]; cbn.
  - rewrite Z.eqb_eq. split.
    + intros [-> Hp]. split; [by right | done].
    + intros [[?|[= ->]] Hp]; done.
  - split; [intros [_ Hp]; split; [by left | done] | by intros [_ Hp]].
Qed.

Lemma IsPodRunning_iff_witness :
  IsPodRunning (Some sample_pod) = Ret true ∧
  IsPodRunning (Some (Pod.mk "web-1" (Some 1700) sample_spec sample_status))
    = Ret false.
Proof.
  split.
  - destruct (IsPodRunning_iff sample_pod) as (b & -> & Hiff).
    f_equal. apply Hiff. split; [by left | reflexivity].
  - destruct (IsPodRunning_iff (Pod.mk "web-1" (Some 1700) sample_spec sample_status))
      as (b & -> & Hiff).
    f_equal. apply not_true_iff_false. intros Hb.
    apply Hiff in Hb as [[Hnil|Hzero] _]; discriminate.
Defined.

(** X2: a pod that [IsPodRunning] reports running is reported active by
    [IsPodActive]. *)
Theorem IsPodRunning_IsPodActive (pod : ptr Pod.t) :
  IsPodRunning pod = Ret true → IsPodActive pod = Ret true.
Proof.
  destruct pod as [p|]; [|done]. cbn. intros [= Hrun]. f_equal.
  apply andb_true_iff in Hrun as [Hzero Hphase].
  apply String.eqb_eq in Hphase. by rewrite Hphase, Hzero.
Qed.

Lemma IsPodRunning_IsPodActive_witness :
  IsPodRunning (Some sample_pod) = Ret true ∧
  IsPodActive (Some sample_pod) = Ret true.
Proof.
  assert (IsPodRunning (Some sample_pod) = Ret true) as Hrun by reflexivity.
  split; [exact Hrun|]. exact (IsPodRunning_IsPodActive (Some sample_pod) Hrun).
Defined.

(** X3: [GetPodReadyCondition] returns the first condition of type Ready,
    nil without one, and [IsPodReadyConditionTrue] and [IsPodReady]
    answer true exactly when that first condition has status True; later
    conditions of type Ready are not looked at. *)
Theorem IsPodReady_first_ready_condition (pod : Pod.t) :
  let status := Pod.Status pod in
  let conditions := elems (PodStatus.Conditions status) in
  IsPodReady (Some pod) = Ret (IsPodReadyConditionTrue status) ∧
  ((absent conditions PodReady ∧
    GetPodReadyCondition status = None ∧
    IsPodReadyConditionTrue status = false) ∨
   (∃ (i : nat) (c : PodCondition.t),
      first_match conditions PodReady i c ∧
      GetPodReadyCondition status = Some c ∧
      (IsPodReadyConditionTrue status = true ↔
       PodCondition.Status c = ConditionTrue))).
Proof.
  cbn zeta. split; [done|].
  unfold IsPodReadyConditionTrue, GetPodReadyCondition, GetPodCondition.
  destruct (absent_or_first_match (elems (PodStatus.Conditions (Pod.Status pod)))
              PodReady) as [Habs|(i & c & Hfm)].
  - left. by rewrite (GetPodConditionFromList_absent _ _ Habs).
  - right. exists i, c. rewrite (GetPodConditionFromList_found _ _ _ _ Hfm). cbn.
    split; [done|]. split; [done|]. apply String.eqb_eq.
Qed.

(** Of two conditions of type Ready the first decides. *)
Example IsPodReadyConditionTrue_first_decides :
  IsPodReadyConditionTrue
    (PodStatus.mk PodRunning (Some [sample_not_ready; sample_ready])) = false ∧
  IsPodReadyConditionTrue
    (PodStatus.mk PodRunning (Some [sample_ready; sample_not_ready])) = true.
Proof. split; reflexivity. Qed.

(** X4: with at most one condition per type, every condition of the
    sequence is the one a lookup by its type returns, with its position,
    and the pod is ready exactly when the sequence holds a condition of
    type Ready with status True. *)
Theorem unique_types_lookup (s : PodStatus.t) :
  unique_types (elems (PodStatus.Conditions s)) →
  (∀ (j : nat) (e : PodCondition.t),
     elems (PodStatus.Conditions s) !! j = Some e →
     GetPodCondition (Some s) (PodCondition.Type_ e) = (Z.of_nat j, Some e)) ∧
  (IsPodReadyConditionTrue s = true ↔
   ∃ e, e ∈ elems (PodStatus.Conditions s) ∧
        PodCondition.Type_ e = PodReady ∧ PodCondition.Status e = ConditionTrue).
Proof.
  intros Huniq.
  assert (∀ j e, elems (PodStatus.Conditions s) !! j = Some e →
            GetPodCondition (Some s) (PodCondition.Type_ e) = (Z.of_nat j, Some e))
    as Hlookup.
  { intros j e Hj. cbn. apply GetPodConditionFromList_found.
    by apply unique_types_first_match. }
  split; [done|].
  unfold IsPodReadyConditionTrue, GetPodReadyCondition. split.
  - destruct (GetPodCondition (Some s) PodReady) as [k [c|]] eqn:Hget; cbn; [|done].
    intros Htrue. apply String.eqb_eq in Htrue. exists c.
    cbn in Hget.
    destruct (absent_or_first_match (elems (PodStatus.Conditions s)) PodReady)
      as [Habs|(i & c0 & Hfm)].
    + by rewrite (GetPodConditionFromList_absent _ _ Habs) in Hget.
    + rewrite (GetPodConditionFromList_found _ _ _ _ Hfm) in Hget.
      injection Hget as _ ->. destruct Hfm as (Hi & Hty & _).
      split; [|done]. apply list_elem_of_lookup. eauto.
  - intros (e & Hin & Hty & Hst). apply list_elem_of_lookup in Hin as (j & Hj).
    rewrite <- Hty, (Hlookup j e Hj). cbn. by apply String.eqb_eq.
Qed.

Lemma unique_types_lookup_witness :
  GetPodCondition (Some sample_status) PodReady = (1, Some sample_not_ready) ∧
  IsPodReadyConditionTrue sample_status = false.
Proof.
  assert (unique_types (elems (PodStatus.Conditions sample_status))) as Huniq.
  { unfold unique_types. cbn. apply (bool_decide_unpack _). vm_compute. exact I. }
  destruct (unique_types_lookup sample_status Huniq) as [Hlookup Hready].
  split.
  - exact (Hlookup 1%nat sample_not_ready eq_refl).
  - apply not_true_iff_false. intros Htrue.
    apply Hready in Htrue as (e & Hin & Hty & Hst).
    apply list_elem_of_In in Hin. cbn in Hin.
    destruct Hin as [<-|[<-|[]]]; discriminate.
Defined.

Lemma IsPodReady_first_ready_condition_witness :
  IsPodReady (Some sample_pod) = Ret false ∧
  GetPodReadyCondition sample_status = Some sample_not_ready.
Proof.
  destruct (IsPodReady_first_ready_condition sample_pod)
    as [Hrun [(Habs & _)|(i & c & Hfm & Hget & Hiff)]].
  - destruct (Habs sample_not_ready); [|reflexivity].
    apply list_elem_of_In. cbn. tauto.
  - assert (c = sample_not_ready) as -> by (vm_compute in Hget; by injection Hget as <-).
    split; [|exact Hget]. rewrite Hrun.
    assert (IsPodReadyConditionTrue (Pod.Status sample_pod) = false) as Hfalse.
    { apply not_true_iff_false. intros Htrue. apply Hiff in Htrue. discriminate. }
    exact (f_equal Ret Hfalse).
Defined.


(** X5: after [UpdatePodCondition] a lookup of the type of the condition
    in the updated status returns the condition as the caller holds it
    after the call, which is the new condition up to its transition
    time; and [IsPodReadyConditionTrue] on the status updated with a
    condition of type Ready answers whether the new status is True. *)
Theorem UpdatePodCondition_then_GetPodCondition
    (now : metav1.Time) (s : PodStatus.t) (r : condition_ref) (c : PodCondition.t) :
  content s r = Some c →
  ∃ (changed : bool) (s' : PodStatus.t) (r' : condition_ref)
    (c' : PodCondition.t) (i : nat),
    UpdatePodCondition now (Some s) (Some r)
      = (Ret changed, Memory (Some s') (Some r')) ∧
    content s' r' = Some c' ∧
    GetPodCondition (Some s') (PodCondition.Type_ c) = (Z.of_nat i, Some c') ∧
    c' = PodCondition.mk (PodCondition.Type_ c) (PodCondition.Status c)
           (PodCondition.LastProbeTime c) (PodCondition.LastTransitionTime c')
           (PodCondition.Reason c) (PodCondition.Message c) ∧
    (PodCondition.Type_ c = PodReady →
     IsPodReadyConditionTrue s' = String.eqb (PodCondition.Status c) ConditionTrue).
Proof.
  intros Hc.
  destruct (UpdatePodCondition_result now s r c Hc)
    as (changed & l' & i & c' & Hrun & Hfm & Hcontent & Hc' & _ & _).
  eexists changed, _, _, c', i. split; [exact Hrun|]. split; [exact Hcontent|].
  assert (GetPodCondition (Some (PodStatus.mk (PodStatus.Phase s) (Some l')))
            (PodCondition.Type_ c) = (Z.of_nat i, Some c')) as Hget.
  { apply (GetPodConditionFromList_found (Some l')). exact Hfm. }
  split; [done|]. split; [done|].
  intros Hty. unfold IsPodReadyConditionTrue, GetPodReadyCondition.
  rewrite <- Hty, Hget. cbn. by rewrite Hc'.
Qed.

Lemma UpdatePodCondition_then_GetPodCondition_witness :
  (∃ (changed : bool) (s' : PodStatus.t) (r' : condition_ref),
     UpdatePodCondition sample_now (Some sample_status) (Some (Separate sample_ready))
       = (Ret changed, Memory (Some s') (Some r')) ∧
     IsPodReadyConditionTrue s' = true) ∧
  (∃ (changed : bool) (s' : PodStatus.t) (r' : condition_ref) (c' : PodCondition.t)
     (i : nat),
     UpdatePodCondition sample_now (Some sample_status) (Some (Stored 1))
       = (Ret changed, Memory (Some s') (Some r')) ∧
     GetPodCondition (Some s') "Ready" = (Z.of_nat i, Some c') ∧
     content s' r' = Some c').
Proof.
  split.
  - destruct (UpdatePodCondition_then_GetPodCondition sample_now sample_status
                (Separate sample_ready) sample_ready eq_refl)
      as (changed & s' & r' & c' & i & Hrun & _ & _ & _ & Hready).
    exists changed, s', r'. split; [exact Hrun|]. exact (Hready eq_refl).
  - destruct (UpdatePodCondition_then_GetPodCondition sample_now sample_status
                (Stored 1) sample_not_ready eq_refl)
      as (changed & s' & r' & c' & i & Hrun & Hcontent & Hget & _ & _).
    exists changed, s', r', c', i. split; [exact Hrun|]. split; [exact Hget|].
    exact Hcontent.
Defined.

(** X6: [UpdatePodCondition] and [AddPodCondition] leave the phase and
    the lookups of every other type as they were; in particular a
    condition of another type than Ready does not change what
    [IsPodReadyConditionTrue] answers. *)
Theorem conditions_of_other_types_kept
    (now : metav1.Time) (s : PodStatus.t) (r : condition_ref) (c : PodCondition.t)
    (ty : PodConditionType) :
  content s r = Some c →
  ty ≠ PodCondition.Type_ c →
  (∃ (changed : bool) (s' : PodStatus.t) (r' : condition_ref),
     UpdatePodCondition now (Some s) (Some r)
       = (Ret changed, Memory (Some s') (Some r')) ∧
     PodStatus.Phase s' = PodStatus.Phase s ∧
     GetPodCondition (Some s') ty = GetPodCondition (Some s) ty ∧
     (ty = PodReady → IsPodReadyConditionTrue s' = IsPodReadyConditionTrue s)) ∧
  (∃ (added : bool) (s' : PodStatus.t) (r' : condition_ref),
     AddPodCondition now (Some s) (Some r)
       = (Ret added, Memory (Some s') (Some r')) ∧
     PodStatus.Phase s' = PodStatus.Phase s ∧
     GetPodCondition (Some s') ty = GetPodCondition (Some s) ty ∧
     (ty = PodReady → IsPodReadyConditionTrue s' = IsPodReadyConditionTrue s)).
Proof.
  intros Hc Hty.
  assert (∀ s' : PodStatus.t,
            GetPodCondition (Some s') ty = GetPodCondition (Some s) ty →
            ty = PodReady →
            IsPodReadyConditionTrue s' = IsPodReadyConditionTrue s) as Hready.
  { intros s' Hget ->. unfold IsPodReadyConditionTrue, GetPodReadyCondition.
    by rewrite Hget. }
  split.
  - destruct (UpdatePodCondition_result now s r c Hc)
      as (changed & l' & i & c' & Hrun & _ & _ & _ & _ & Hothers).
    eexists _, _, _. split; [exact Hrun|]. split; [done|].
    assert (GetPodCondition (Some (PodStatus.mk (PodStatus.Phase s) (Some l'))) ty
            = GetPodCondition (Some s) ty) as Hget by (by apply Hothers).
    split; [exact Hget | by apply Hready].
  - destruct (AddPodCondition_cases now s r c Hc)
      as [(_ & _ & ->)|(_ & ->)]; eexists _, _, _; (split; [done|]);
      (split; [done|]).
    + assert (GetPodCondition
                (Some (PodStatus.mk (PodStatus.Phase s)
                         (Some (elems (PodStatus.Conditions s) ++
                                [with_LastTransitionTime now c])))) ty
              = GetPodCondition (Some s) ty) as Hget.
      { unfold GetPodCondition. cbn [PodStatus.Conditions].
        rewrite (GetPodConditionFromList_snoc_other _ ty
                   (with_LastTransitionTime now c) Hty).
        apply GetPodConditionFromList_elems. }
      split; [exact Hget | by apply Hready].
    + split; [done | by apply Hready].
Qed.

Lemma conditions_of_other_types_kept_witness :
  (∃ (changed : bool) (s' : PodStatus.t) (r' : condition_ref),
     UpdatePodCondition sample_now (Some sample_status) (Some (Separate sample_ready))
       = (Ret changed, Memory (Some s') (Some r')) ∧
     GetPodCondition (Some s') "PodScheduled" = (0, Some sample_scheduled)) ∧
  (∃ (changed : bool) (s' : PodStatus.t) (r' : condition_ref),
     UpdatePodCondition sample_now (Some sample_status) (Some (Stored 1))
       = (Ret changed, Memory (Some s') (Some r')) ∧
     GetPodCondition (Some s') "PodScheduled" = (0, Some sample_scheduled)) ∧
  (∃ (added : bool) (s' : PodStatus.t) (r' : condition_ref),
     AddPodCondition sample_now (Some sample_status) (Some (Separate sample_initialized))
       = (Ret added, Memory (Some s') (Some r')) ∧
     IsPodReadyConditionTrue s' = false).
Proof.
  split; [|split].
  - destruct (conditions_of_other_types_kept sample_now sample_status
                (Separate sample_ready) sample_ready "PodScheduled" eq_refl)
      as [(changed & s' & r' & Hrun & _ & Hget & _) _].
    { discriminate. }
    exists changed, s', r'. split; [exact Hrun|]. exact Hget.
  - destruct (conditions_of_other_types_kept sample_now sample_status
                (Stored 1) sample_not_ready "PodScheduled" eq_refl)
      as [(changed & s' & r' & Hrun & _ & Hget & _) _].
    { discriminate. }
    exists changed, s', r'. split; [exact Hrun|]. exact Hget.
  - destruct (conditions_of_other_types_kept sample_now sample_status
                (Separate sample_initialized) sample_initialized PodReady eq_refl)
      as [_ (added & s' & r' & Hrun & _ & _ & Hready)].
    { discriminate. }
    exists added, s', r'. split; [exact Hrun|]. exact (Hready eq_refl).
Defined.

(** X7: once [UpdatePodCondition] has recorded a condition, recording it
    again at any later time from a cell of its own (the condition as it
    was offered, or as the first call left it) reports "unchanged" and
    leaves the status as it is, and [AddPodCondition] of a condition of
    that type reports "not added" and leaves the status and the
    condition as they are. *)
Theorem UpdatePodCondition_recorded
    (now later : metav1.Time) (s : PodStatus.t) (r : condition_ref)
    (c : PodCondition.t) :
  content s r = Some c →
  ∃ (changed : bool) (s' : PodStatus.t) (r' : condition_ref) (c' : PodCondition.t),
    UpdatePodCondition now (Some s) (Some r)
      = (Ret changed, Memory (Some s') (Some r')) ∧
    content s' r' = Some c' ∧
    UpdatePodCondition later (Some s') (Some (Separate c))
      = (Ret false, Memory (Some s') (Some (Separate c'))) ∧
    UpdatePodCondition later (Some s') (Some (Separate c'))
      = (Ret false, Memory (Some s') (Some (Separate c'))) ∧
    (∀ (r2 : condition_ref) (c2 : PodCondition.t),
       content s' r2 = Some c2 →
       PodCondition.Type_ c2 = PodCondition.Type_ c →
       AddPodCondition later (Some s') (Some r2)
         = (Ret false, Memory (Some s') (Some r2))).
Proof.
  intros Hc.
  destruct (UpdatePodCondition_result now s r c Hc)
    as (changed & l' & i & c' & Hrun & Hfm & Hcontent & Hc' & _ & _).
  eexists changed, _, _, c'. split; [exact Hrun|]. split; [exact Hcontent|].
  assert (∀ c0, c0 = with_LastTransitionTime (PodCondition.LastTransitionTime c0) c →
            UpdatePodCondition later
              (Some (PodStatus.mk (PodStatus.Phase s) (Some l'))) (Some (Separate c0))
            = (Ret false,
               Memory (Some (PodStatus.mk (PodStatus.Phase s) (Some l')))
                      (Some (Separate c')))) as Hagain.
  { intros c0 Hc0.
    assert (PodCondition.Type_ c0 = PodCondition.Type_ c ∧
            PodCondition.Status c0 = PodCondition.Status c ∧
            PodCondition.Reason c0 = PodCondition.Reason c ∧
            PodCondition.Message c0 = PodCondition.Message c ∧
            PodCondition.LastProbeTime c0 = PodCondition.LastProbeTime c)
      as (Hty0 & Hs0 & Hr0 & Hm0 & Hp0) by (by rewrite Hc0).
    assert (PodCondition.Type_ c' = PodCondition.Type_ c ∧
            PodCondition.Status c' = PodCondition.Status c ∧
            PodCondition.Reason c' = PodCondition.Reason c ∧
            PodCondition.Message c' = PodCondition.Message c ∧
            PodCondition.LastProbeTime c' = PodCondition.LastProbeTime c)
      as (Hty' & Hs' & Hr' & Hm' & Hp') by (by rewrite Hc').
    assert (first_match l' (PodCondition.Type_ c0) i c') as Hfm0 by (by rewrite Hty0).
    rewrite (UpdatePodCondition_separate_found later
               (PodStatus.mk (PodStatus.Phase s) (Some l')) c0 i c' Hfm0).
    assert (same_observation c0 c' = true) as ->.
    { apply same_observation_true. repeat split; congruence. }
    assert (stored_condition later c' c0 = c') as ->.
    { rewrite stored_condition_same_status by congruence.
      destruct c0, c'; cbn in *. congruence. }
    cbn. destruct Hfm as (Hi & _). by rewrite (list_insert_id _ _ _ Hi). }
  split; [by apply Hagain; destruct c|]. split; [by apply Hagain|].
  intros r2 c2 Hc2 Hty.
  apply (AddPodCondition_found later _ r2 c2 i c' Hc2). by rewrite Hty.
Qed.

Lemma UpdatePodCondition_recorded_witness :
  ∃ (changed : bool) (s' : PodStatus.t) (c' : PodCondition.t),
    UpdatePodCondition sample_now (Some sample_status) (Some (Separate sample_ready))
      = (Ret changed, Memory (Some s') (Some (Separate c'))) ∧
    UpdatePodCondition 2000 (Some s') (Some (Separate sample_ready))
      = (Ret false, Memory (Some s') (Some (Separate c'))) ∧
    AddPodCondition 2000 (Some s') (Some (Separate sample_not_ready))
      = (Ret false, Memory (Some s') (Some (Separate sample_not_ready))).
Proof.
  destruct (UpdatePodCondition_recorded sample_now 2000 sample_status
              (Separate sample_ready) sample_ready eq_refl)
    as (changed & s' & r' & c' & Hrun & Hcontent & Hagain & _ & Hadd).
  assert (r' = Separate c') as ->.
  { vm_compute in Hrun. injection Hrun as _ _ <-. cbn in Hcontent. congruence. }
  exists changed, s', c'. split; [exact Hrun|]. split; [exact Hagain|].
  apply (Hadd (Separate sample_not_ready) sample_not_ready); reflexivity.
Defined.

(** X8: the flag a mutating helper returns says whether it modified the
    record: [UpdatePodCondition], given a condition in a cell of its own,
    returns false exactly when the status after the call is the status
    before it; so does [AddPodCondition], whatever the condition pointer
    designates; and [AddPodReadinessGate] returns false exactly when the
    spec after the call is the spec before it. *)
Theorem flag_reports_modification
    (now : metav1.Time) (s : PodStatus.t) (c : PodCondition.t)
    (spec : PodSpec.t) (ty : PodConditionType) :
  (∃ (changed : bool) (s' : PodStatus.t) (c' : PodCondition.t),
     UpdatePodCondition now (Some s) (Some (Separate c))
       = (Ret changed, Memory (Some s') (Some (Separate c'))) ∧
     (changed = false ↔ s' = s)) ∧
  (∀ r : condition_ref,
     content s r = Some c →
     ∃ (added : bool) (s' : PodStatus.t) (r' : condition_ref),
       AddPodCondition now (Some s) (Some r)
         = (Ret added, Memory (Some s') (Some r')) ∧
       (added = false ↔ s' = s)) ∧
  (∃ (added : bool) (spec' : PodSpec.t),
     AddPodReadinessGate (Some spec) ty = Ret (added, spec') ∧
     (added = false ↔ spec' = spec)).
Proof.
  assert (∀ {A : Type} (l : list A) (x : A), l ++ [x] ≠ l) as Hsnoc.
  { intros A l x Heq. apply (f_equal length) in Heq.
    rewrite length_app in Heq. cbn in Heq. lia. }
  assert (∀ x, PodStatus.mk (PodStatus.Phase s)
                 (Some (elems (PodStatus.Conditions s) ++ [x])) ≠ s) as Happended.
  { intros x Heq. apply (f_equal (λ st, elems (PodStatus.Conditions st))) in Heq.
    cbn in Heq. by apply Hsnoc in Heq. }
  split; [|split].
  - destruct (absent_or_first_match (elems (PodStatus.Conditions s))
                (PodCondition.Type_ c)) as [Habs|(i & old & Hfm)].
    + eexists _, _, _. split; [by apply UpdatePodCondition_separate_absent|].
      split; [done|]. intros Heq. by apply Happended in Heq.
    + eexists _, _, _.
      split; [by apply (UpdatePodCondition_separate_found _ _ _ i old)|].
      pose proof (first_match_not_nil _ _ _ _ Hfm) as Hnil.
      destruct Hfm as (Hi & Hty & _).
      rewrite negb_false_iff, <- (stored_condition_is_old now) by done.
      split.
      * intros ->. rewrite (list_insert_id _ _ _ Hi), <- Hnil. by destruct s.
      * intros Heq. apply (f_equal (λ st, elems (PodStatus.Conditions st) !! i)) in Heq.
        cbn in Heq. rewrite Hi, list_lookup_insert_eq in Heq
          by (by apply lookup_lt_Some in Hi).
        by injection Heq.
  - intros r Hc.
    destruct (AddPodCondition_cases now s r c Hc)
      as [(_ & _ & ->)|(_ & ->)]; eexists _, _, _; (split; [done|]); [|done].
    split; [done|]. intros Heq. by apply Happended in Heq.
  - unfold AddPodReadinessGate. cbn.
    destruct (AddPodReadinessGate_range _ _); eexists _, _; (split; [done|]).
    + done.
    + split; [done|]. intros Heq.
      apply (f_equal (λ sp, elems (PodSpec.ReadinessGates sp))) in Heq.
      cbn in Heq. by apply Hsnoc in Heq.
Qed.

Lemma flag_reports_modification_witness :
  (∃ (s' : PodStatus.t) (c' : PodCondition.t),
     UpdatePodCondition sample_now (Some sample_status) (Some (Separate sample_ready))
       = (Ret true, Memory (Some s') (Some (Separate c'))) ∧ s' ≠ sample_status) ∧
  (∃ (r' : condition_ref),
     AddPodCondition sample_now (Some sample_status) (Some (Stored 1))
       = (Ret false, Memory (Some sample_status) (Some r'))) ∧
  AddPodReadinessGate (Some sample_spec) "example.com/gate" = Ret (false, sample_spec).
Proof.
  destruct (flag_reports_modification sample_now sample_status sample_ready
              sample_spec "example.com/gate")
    as ((changed & s1 & c1 & Hupdate & Hchanged) & _ &
        (gated & spec' & Hgate & Hgated)).
  destruct (flag_reports_modification sample_now sample_status sample_not_ready
              sample_spec "example.com/gate")
    as (_ & Hadd & _).
  destruct (Hadd (Stored 1) eq_refl) as (added & s2 & r2 & Hadd2 & Hadded).
  split; [|split].
  - assert (changed = true) as Hflag.
    { vm_compute in Hupdate. by injection Hupdate as <- _ _. }
    exists s1, c1. rewrite Hflag in Hupdate. split; [exact Hupdate|].
    intros Heq. apply Hchanged in Heq. congruence.
  - assert (added = false) as Hflag.
    { vm_compute in Hadd2. by injection Hadd2 as <- _ _. }
    exists r2. rewrite Hflag, (proj1 Hadded Hflag) in Hadd2. exact Hadd2.
  - assert (gated = false) as Hflag.
    { vm_compute in Hgate. by injection Hgate as <- _. }
    rewrite Hflag, (proj1 Hgated Hflag) in Hgate. exact Hgate.
Defined.

(** X9: without a condition of the type in the status,
    [AddPodCondition] and [UpdatePodCondition] of a condition in a cell
    of its own do the same: the status keeps its phase and its
    conditions, followed by the condition with the current time as
    transition time; the caller's condition is that one too; true is
    returned. *)
Theorem AddPodCondition_as_UpdatePodCondition
    (now : metav1.Time) (s : PodStatus.t) (c : PodCondition.t) :
  absent (elems (PodStatus.Conditions s)) (PodCondition.Type_ c) →
  let stamped :=
    PodCondition.mk (PodCondition.Type_ c) (PodCondition.Status c)
      (PodCondition.LastProbeTime c) now
      (PodCondition.Reason c) (PodCondition.Message c) in
  let after :=
    Memory
      (Some (PodStatus.mk (PodStatus.Phase s)
               (Some (elems (PodStatus.Conditions s) ++ [stamped]))))
      (Some (Separate stamped)) in
  AddPodCondition now (Some s) (Some (Separate c)) = (Ret true, after) ∧
  UpdatePodCondition now (Some s) (Some (Separate c)) = (Ret true, after).
Proof.
  intros Habs. cbn zeta.
  by rewrite (AddPodCondition_absent _ _ _ Habs),
    (UpdatePodCondition_separate_absent _ _ _ Habs).
Qed.

Lemma AddPodCondition_as_UpdatePodCondition_witness :
  AddPodCondition 1000 (Some sample_status) (Some (Separate sample_initialized))
  = (Ret true,
     Memory
       (Some (PodStatus.mk "Running"
                (Some [sample_scheduled; sample_not_ready;
                       PodCondition.mk "Initialized" "True" 4 1000 "" ""])))
       (Some (Separate (PodCondition.mk "Initialized" "True" 4 1000 "" "")))) ∧
  UpdatePodCondition 1000 (Some sample_status) (Some (Separate sample_initialized))
  = (Ret true,
     Memory
       (Some (PodStatus.mk "Running"
                (Some [sample_scheduled; sample_not_ready;
                       PodCondition.mk "Initialized" "True" 4 1000 "" ""])))
       (Some (Separate (PodCondition.mk "Initialized" "True" 4 1000 "" "")))).
Proof.
  apply (AddPodCondition_as_UpdatePodCondition 1000 sample_status sample_initialized).
  apply absent_of_range. reflexivity.
Defined.

(** X10: [UpdatePodCondition], given a condition in a cell of its own,
    never removes or moves a condition: the sequence of types afterwards
    is the sequence before, with the type of the new condition at the end
    when it was missing, and every entry but the first one of that type
    is where and what it was. *)
Theorem UpdatePodCondition_keeps_the_others
    (now : metav1.Time) (s : PodStatus.t) (c : PodCondition.t) :
  ∃ (changed : bool) (s' : PodStatus.t) (c' : PodCondition.t),
    UpdatePodCondition now (Some s) (Some (Separate c))
      = (Ret changed, Memory (Some s') (Some (Separate c'))) ∧
    let l := elems (PodStatus.Conditions s) in
    let l' := elems (PodStatus.Conditions s') in
    (((∃ e, e ∈ l ∧ PodCondition.Type_ e = PodCondition.Type_ c) ∧
      PodCondition.Type_ <$> l' = PodCondition.Type_ <$> l ∧
      length l' = length l) ∨
     (absent l (PodCondition.Type_ c) ∧
      PodCondition.Type_ <$> l' = (PodCondition.Type_ <$> l) ++ [PodCondition.Type_ c] ∧
      length l' = S (length l))) ∧
    (∀ (j : nat) (e : PodCondition.t),
       l !! j = Some e →
       PodCondition.Type_ e ≠ PodCondition.Type_ c ∨
       (∃ (i : nat) (old : PodCondition.t),
          (i < j)%nat ∧ l !! i = Some old ∧
          PodCondition.Type_ old = PodCondition.Type_ c) →
       l' !! j = Some e).
Proof.
  destruct (absent_or_first_match (elems (PodStatus.Conditions s))
              (PodCondition.Type_ c)) as [Habs|(i & old & Hfm)].
  - eexists _, _, _. split; [by apply UpdatePodCondition_separate_absent|].
    cbn. split.
    + right. split; [done|]. rewrite fmap_app, length_app. cbn. split; [done | lia].
    + intros j e Hj _. rewrite lookup_app_l; [done|]. by apply lookup_lt_Some in Hj.
  - eexists _, _, _.
    split; [by apply (UpdatePodCondition_separate_found _ _ _ i old)|].
    cbn. destruct Hfm as (Hi & Hty & Hbefore). split.
    + left. split; [|split].
      * exists old. split; [|done]. apply list_elem_of_lookup. eauto.
      * rewrite list_fmap_insert. apply list_insert_id.
        rewrite list_lookup_fmap, Hi. cbn. by rewrite Hty.
      * apply length_insert.
    + intros j e Hj Hother. rewrite list_lookup_insert_ne; [done|].
      intros <-. rewrite Hj in Hi. injection Hi as ->.
      destruct Hother as [Hne|(k & d & Hk & Hd & Hdty)]; [done|].
      by apply (Hbefore k d).
Qed.

Lemma UpdatePodCondition_keeps_the_others_witness :
  ∃ (changed : bool) (s' : PodStatus.t) (c' : PodCondition.t),
    UpdatePodCondition sample_now (Some sample_status) (Some (Separate sample_ready))
      = (Ret changed, Memory (Some s') (Some (Separate c'))) ∧
    elems (PodStatus.Conditions s') !! 0%nat = Some sample_scheduled.
Proof.
  destruct (UpdatePodCondition_keeps_the_others sample_now sample_status sample_ready)
    as (changed & s' & c' & Hrun & _ & Hkept).
  exists changed, s', c'. split; [exact Hrun|].
  apply Hkept; [reflexivity|]. left. discriminate.
Defined.

(** The loop of [GetPodNames] panics exactly on a nil reference. *)
Lemma GetPodNames_range_Panic (pods : list (ptr Pod.t)) (result : list string) :
  GetPodNames_range pods result = Panic ↔ None ∈ pods.
Proof.
  revert result. induction pods as [|[p|] pods IH]; intros result; cbn.
  - split; [done|]. intros Hin. by apply elem_of_nil in Hin.
  - rewrite IH. split; [by right|].
    intros Hin. by apply elem_of_cons in Hin as [?|?].
  - split; [left | done].
Qed.

(** X11: [GetPodNames] panics exactly when one of the references is nil;
    otherwise it returns one name per reference, never a nil sequence. *)
Theorem GetPodNames_Panic_iff (pods : slice (ptr Pod.t)) :
  (GetPodNames pods = Panic ↔ None ∈ elems pods) ∧
  (None ∉ elems pods →
   ∃ names : list string,
     GetPodNames pods = Ret (Some names) ∧ length names = length (elems pods)).
Proof.
  assert (GetPodNames pods = Panic ↔ None ∈ elems pods) as Hiff.
  { unfold GetPodNames. rewrite <- (GetPodNames_range_Panic _ []).
    destruct (GetPodNames_range _ _); by cbn. }
  split; [done|]. intros Hnone.
  assert (∃ l : list Pod.t, elems pods = Some <$> l) as [l Hl].
  { revert Hnone. generalize (elems pods). intros ps.
    induction ps as [|[p|] ps IH]; intros Hnone.
    - by exists [].
    - destruct IH as [l ->]; [|by exists (p :: l)].
      intros Hin. apply Hnone. by right.
    - destruct Hnone. left. }
  exists (Pod.Name <$> l). unfold GetPodNames.
  rewrite Hl, GetPodNames_range_names. cbn.
  by rewrite !length_fmap.
Qed.

Lemma GetPodNames_Panic_iff_witness :
  GetPodNames (Some [Some sample_pod; None]) = Panic ∧
  ∃ names : list string,
    GetPodNames (Some [Some sample_pod; Some sample_pod]) = Ret (Some names) ∧
    length names = 2%nat.
Proof.
  split.
  - apply (proj1 (GetPodNames_Panic_iff (Some [Some sample_pod; None]))).
    apply list_elem_of_In. cbn. tauto.
  - apply (proj2 (GetPodNames_Panic_iff (Some [Some sample_pod; Some sample_pod]))).
    intros Hin. apply list_elem_of_In in Hin. cbn in Hin.
    destruct Hin as [?|[?|[]]]; discriminate.
Defined.

(** X13: after [AddPodReadinessGate] the gates are the gates before,
    in their order, followed by the gate for the type when none wrapped
    it; a gate is in the sequence afterwards exactly when it was before
    or wraps the type, and asking for the same type again answers false
    and changes nothing. *)
Theorem AddPodReadinessGate_gates (spec : PodSpec.t) (ty : PodConditionType) :
  ∃ (added : bool) (spec' : PodSpec.t),
    AddPodReadinessGate (Some spec) ty = Ret (added, spec') ∧
    elems (PodSpec.ReadinessGates spec') =
      elems (PodSpec.ReadinessGates spec) ++
      (if added then [PodReadinessGate.mk ty] else []) ∧
    (∀ rg : PodReadinessGate.t,
       rg ∈ elems (PodSpec.ReadinessGates spec') ↔
       rg ∈ elems (PodSpec.ReadinessGates spec) ∨ rg = PodReadinessGate.mk ty) ∧
    AddPodReadinessGate (Some spec') ty = Ret (false, spec').
Proof.
  unfold AddPodReadinessGate. cbn.
  destruct (AddPodReadinessGate_range (elems (PodSpec.ReadinessGates spec)) ty)
    eqn:Hscan.
  - exists false, spec. cbn. rewrite Hscan, app_nil_r.
    split; [done|]. split; [done|]. split; [|done].
    intros rg. split; [by left|]. intros [Hin| ->]; [done|].
    apply AddPodReadinessGate_range_true in Hscan as (rg & Hin & Hty).
    destruct rg as [ty0]. cbn in Hty. by subst.
  - eexists true, _. split; [done|]. cbn. split; [done|]. split.
    + intros rg. rewrite elem_of_app, list_elem_of_singleton. done.
    + assert (AddPodReadinessGate_range
                (elems (PodSpec.ReadinessGates spec) ++ [PodReadinessGate.mk ty]) ty
              = true) as ->; [|done].
      apply AddPodReadinessGate_range_true. exists (PodReadinessGate.mk ty).
      split; [|done]. apply elem_of_app. right. by apply list_elem_of_singleton.
Qed.

Lemma AddPodReadinessGate_gates_witness :
  ∃ spec' : PodSpec.t,
    AddPodReadinessGate (Some sample_spec) "example.com/other" = Ret (true, spec') ∧
    PodReadinessGate.mk "example.com/gate" ∈ elems (PodSpec.ReadinessGates spec') ∧
    AddPodReadinessGate (Some spec') "example.com/other" = Ret (false, spec').
Proof.
  destruct (AddPodReadinessGate_gates sample_spec "example.com/other")
    as (added & spec' & Hrun & _ & Hin & Hagain).
  assert (added = true) as Hflag.
  { vm_compute in Hrun. by injection Hrun as <- _. }
  exists spec'. rewrite Hflag in Hrun. split; [exact Hrun|]. split; [|exact Hagain].
  apply Hin. left. apply list_elem_of_In. cbn. tauto.
Defined.

(** X12: the helpers panic on nil references and on nothing else:
    [UpdatePodCondition] and [AddPodCondition] exactly when the status or
    the condition is nil, [AddPodReadinessGate] exactly when the spec is,
    and the three predicates exactly when the pod is. *)
Theorem Panic_iff_nil
    (now : metav1.Time) (status : ptr PodStatus.t) (condition : ptr condition_ref)
    (spec : ptr PodSpec.t) (ty : PodConditionType) (pod : ptr Pod.t) :
  designates status condition →
  (fst (UpdatePodCondition now status condition) = Panic ↔
   status = None ∨ condition = None) ∧
  (fst (AddPodCondition now status condition) = Panic ↔
   status = None ∨ condition = None) ∧
  (AddPodReadinessGate spec ty = Panic ↔ spec = None) ∧
  (IsPodRunning pod = Panic ↔ pod = None) ∧
  (IsPodActive pod = Panic ↔ pod = None) ∧
  (IsPodReady pod = Panic ↔ pod = None).
Proof.
  intros Hdes.
  assert (∀ s r, status = Some s → condition = Some r → ∃ c, content s r = Some c)
    as Hcontent.
  { intros s r -> ->. destruct r as [c|k]; [by exists c|]. exact Hdes. }
  split; [|split; [|split]].
  - destruct condition as [r|]; [|split; [by right | done]].
    destruct status as [s|].
    + destruct (Hcontent s r eq_refl eq_refl) as [c Hc].
      destruct (UpdatePodCondition_cases now s r c Hc)
        as [(_ & _ & ->)|(i & old & _ & ->)]; (split; [done | by intros [?|?]]).
    + destruct r as [c|k]; [|done]. split; [by left | done].
  - destruct condition as [r|]; [|split; [by right | done]].
    destruct status as [s|].
    + destruct (Hcontent s r eq_refl eq_refl) as [c Hc].
      destruct (AddPodCondition_cases now s r c Hc)
        as [(_ & _ & ->)|(_ & ->)]; (split; [done | by intros [?|?]]).
    + destruct r as [c|k]; [|done]. split; [by left | done].
  - destruct spec as [sp|]; [|done]. unfold AddPodReadinessGate. cbn.
    by destruct (AddPodReadinessGate_range _ _).
  - by destruct pod.
Qed.

Lemma Panic_iff_nil_witness :
  fst (UpdatePodCondition sample_now (Some sample_status) None) = Panic ∧
  fst (AddPodCondition sample_now None (Some (Separate sample_ready))) = Panic ∧
  fst (UpdatePodCondition sample_now (Some sample_status) (Some (Stored 1))) ≠ Panic ∧
  AddPodReadinessGate None PodReady = Panic ∧
  AddPodReadinessGate (Some sample_spec) PodReady ≠ Panic.
Proof.
  pose proof (Panic_iff_nil sample_now (Some sample_status) None None PodReady None I)
    as (Hupdate & _ & Hgate & _).
  pose proof (Panic_iff_nil sample_now None (Some (Separate sample_ready))
                (Some sample_spec) PodReady None I) as (_ & Hadd & Hspec & _).
  assert (designates (Some sample_status) (Some (Stored 1))) as Hdes
    by (by exists sample_not_ready).
  pose proof (Panic_iff_nil sample_now (Some sample_status) (Some (Stored 1))
                None PodReady None Hdes) as (Hstored & _).
  split; [|split; [|split; [|split]]].
  - apply Hupdate. by right.
  - apply Hadd. by left.
  - intros Hpanic. apply Hstored in Hpanic as [?|?]; discriminate.
  - by apply Hgate.
  - intros Hpanic. apply Hspec in Hpanic. discriminate.
Defined.

(** X14: [AddPodCondition] leaves the conditions of the status in place
    and at most appends one; afterwards a lookup of the type finds a
    condition: the one that was found before when nothing was added, and
    otherwise, at the end, the new condition with the current time as
    transition time. *)
Theorem AddPodCondition_then_GetPodCondition
    (now : metav1.Time) (s : PodStatus.t) (r : condition_ref) (c : PodCondition.t) :
  content s r = Some c →
  ∃ (added : bool) (s' : PodStatus.t) (r' : condition_ref)
    (i : nat) (e : PodCondition.t),
    AddPodCondition now (Some s) (Some r)
      = (Ret added, Memory (Some s') (Some r')) ∧
    elems (PodStatus.Conditions s') =
      elems (PodStatus.Conditions s) ++ (if added then [e] else []) ∧
    GetPodCondition (Some s') (PodCondition.Type_ c) = (Z.of_nat i, Some e) ∧
    (added = true →
       e = PodCondition.mk (PodCondition.Type_ c) (PodCondition.Status c)
             (PodCondition.LastProbeTime c) now
             (PodCondition.Reason c) (PodCondition.Message c) ∧
       r' = Separate e ∧
       i = length (elems (PodStatus.Conditions s)) ∧
       GetPodCondition (Some s) (PodCondition.Type_ c) = (-1, None)) ∧
    (added = false →
       s' = s ∧ r' = r ∧
       GetPodCondition (Some s) (PodCondition.Type_ c) = (Z.of_nat i, Some e)).
Proof.
  intros Hc.
  destruct (AddPodCondition_cases now s r c Hc)
    as [(_ & Habs & Hrun)|((i & old & Hfm) & Hrun)].
  - eexists true, _, _, _, (with_LastTransitionTime now c).
    split; [exact Hrun|]. split; [done|]. split.
    + apply (GetPodConditionFromList_found (Some _)).
      apply (first_match_snoc_new _ (with_LastTransitionTime now c)).
      exact Habs.
    + split; [|done]. intros _. do 3 (split; [done|]).
      by apply GetPodConditionFromList_absent.
  - exists false, s, r, i, old. split; [exact Hrun|].
    split; [by rewrite app_nil_r|].
    assert (GetPodCondition (Some s) (PodCondition.Type_ c) = (Z.of_nat i, Some old))
      as Hget by (by apply GetPodConditionFromList_found).
    split; [done|]. split; [done|]. done.
Qed.

Lemma AddPodCondition_then_GetPodCondition_witness :
  ∃ (s' : PodStatus.t) (r' : condition_ref),
    AddPodCondition 1000 (Some sample_status) (Some (Separate sample_initialized))
      = (Ret true, Memory (Some s') (Some r')) ∧
    GetPodCondition (Some s') "Initialized"
      = (2, Some (PodCondition.mk "Initialized" "True" 4 1000 "" "")).
Proof.
  destruct (AddPodCondition_then_GetPodCondition 1000 sample_status
              (Separate sample_initialized) sample_initialized eq_refl)
    as (added & s' & r' & i & e & Hrun & _ & Hget & Hadded & _).
  assert (added = true) as Hflag.
  { vm_compute in Hrun. by injection Hrun as <- _ _. }
  destruct (Hadded Hflag) as (-> & _ & -> & _).
  exists s', r'. rewrite Hflag in Hrun. split; [exact Hrun | exact Hget].
Defined.

(** X15: given a condition in a cell of its own and a status with a
    condition of its type, [UpdatePodCondition] puts the new condition in
    the place of the first such entry, with the transition time of that
    entry when the status is the same and the current time otherwise,
    and leaves the rest of the status; it answers "unchanged" exactly
    when status, reason, message and probe time are those of the entry. *)
Theorem UpdatePodCondition_separate_existing
    (now : metav1.Time) (s : PodStatus.t) (c : PodCondition.t)
    (i : nat) (old : PodCondition.t) :
  first_match (elems (PodStatus.Conditions s)) (PodCondition.Type_ c) i old →
  ∃ (changed : bool) (stored : PodCondition.t),
    UpdatePodCondition now (Some s) (Some (Separate c)) =
      (Ret changed,
       Memory
         (Some (PodStatus.mk (PodStatus.Phase s)
                  (Some (<[i := stored]> (elems (PodStatus.Conditions s))))))
         (Some (Separate stored))) ∧
    PodCondition.Type_ stored = PodCondition.Type_ c ∧
    PodCondition.Status stored = PodCondition.Status c ∧
    PodCondition.LastProbeTime stored = PodCondition.LastProbeTime c ∧
    PodCondition.Reason stored = PodCondition.Reason c ∧
    PodCondition.Message stored = PodCondition.Message c ∧
    (PodCondition.Status c = PodCondition.Status old →
       PodCondition.LastTransitionTime stored = PodCondition.LastTransitionTime old) ∧
    (PodCondition.Status c ≠ PodCondition.Status old →
       PodCondition.LastTransitionTime stored = now ∧ changed = true) ∧
    (changed = false ↔
       PodCondition.Status c = PodCondition.Status old ∧
       PodCondition.Reason c = PodCondition.Reason old ∧
       PodCondition.Message c = PodCondition.Message old ∧
       PodCondition.LastProbeTime c = PodCondition.LastProbeTime old) ∧
    (changed = false ↔ stored = old).
Proof.
  intros Hfm. exists (negb (same_observation c old)), (stored_condition now old c).
  split; [by apply UpdatePodCondition_separate_found|].
  do 5 (split; [done|]).
  destruct Hfm as (_ & Hty & _).
  rewrite negb_false_iff. split; [|split; [|split]].
  - intros Hs. by rewrite stored_condition_same_status.
  - intros Hs. rewrite stored_condition_other_status by done. split; [done|].
    apply negb_true_iff, not_true_iff_false. rewrite same_observation_true. tauto.
  - apply same_observation_true.
  - symmetry. by apply stored_condition_is_old.
Qed.

Lemma UpdatePodCondition_separate_existing_witness :
  (∃ stored : PodCondition.t,
     UpdatePodCondition 1000 (Some sample_status)
       (Some (Separate sample_not_ready_other_reason)) =
       (Ret true,
        Memory
          (Some (PodStatus.mk "Running" (Some [sample_scheduled; stored])))
          (Some (Separate stored))) ∧
     PodCondition.LastTransitionTime stored = 100 ∧
     PodCondition.Reason stored = "Gated") ∧
  (∃ stored : PodCondition.t,
     UpdatePodCondition 1000 (Some sample_status) (Some (Separate sample_ready)) =
       (Ret true,
        Memory
          (Some (PodStatus.mk "Running" (Some [sample_scheduled; stored])))
          (Some (Separate stored))) ∧
     PodCondition.LastTransitionTime stored = 1000) ∧
  UpdatePodCondition 1000 (Some sample_status) (Some (Separate sample_not_ready_again))
  = (Ret false, Memory (Some sample_status) (Some (Separate sample_not_ready))).
Proof.
  assert (∀ c, PodCondition.Type_ c = "Ready" →
            first_match (elems (PodStatus.Conditions sample_status))
              (PodCondition.Type_ c) 1 sample_not_ready) as Hfm.
  { intros c ->. apply first_match_of_range. reflexivity. }
  split; [|split].
  - destruct (UpdatePodCondition_separate_existing 1000 sample_status
                sample_not_ready_other_reason 1 sample_not_ready
                (Hfm sample_not_ready_other_reason eq_refl))
      as (changed & stored & Hrun & _ & _ & _ & Hreason & _ & Hsame & _ & Hflag & _).
    exists stored. split; [|split; [by apply Hsame | exact Hreason]].
    destruct changed; [exact Hrun|].
    destruct (proj1 Hflag eq_refl) as (_ & Hr & _). discriminate.
  - destruct (UpdatePodCondition_separate_existing 1000 sample_status
                sample_ready 1 sample_not_ready (Hfm sample_ready eq_refl))
      as (changed & stored & Hrun & _ & _ & _ & _ & _ & _ & Hother & _).
    destruct Hother as [Hltt ->]; [discriminate|].
    exists stored. split; [exact Hrun | exact Hltt].
  - destruct (UpdatePodCondition_separate_existing 1000 sample_status
                sample_not_ready_again 1 sample_not_ready
                (Hfm sample_not_ready_again eq_refl))
      as (changed & stored & Hrun & _ & _ & _ & _ & _ & _ & _ & Hflag & Hold).
    assert (changed = false) as Hchanged by (by apply Hflag).
    rewrite Hchanged, (proj1 Hold Hchanged) in Hrun. exact Hrun.
Defined.
